(** * OBM-Dashboard: quota-aware synchronisation and multi-source aggregation

    A shallow embedding of
    - [src/services/optimizedChatService.ts] (class [OptimizedChatService]:
      expiring cache, usage meter, debounced listener registry, presence
      subscription, message send),
    - [src/hooks/useOptimizedChatService.ts] (the hook's [sendMessage]),
    - [hooks/useOptimizedDataSources.ts] (feed normalisation and aggregation),
    - [src/pages/ChatDashboard.tsx] ([mapWebhookCategory]),
    followed by the properties checked against the specification.

    Conventions.  Instants and durations are integers (milliseconds since the
    epoch, as returned by [Date.now()]); the static [Map]s of the service are
    [gmap]s keyed by strings; mutable static state is threaded explicitly.
    A JavaScript string is modelled by the byte string of its UTF-8 encoding
    (what a string literal of this file denotes): trimming and the white-space
    class of regular expressions know every white-space character of
    ECMAScript, case conversion acts on the ASCII letters.  Dates are their
    instants; invalid dates
    are outside the model.  Callbacks handed in by callers are named by
    numbers and their calls are logged. *)

From Stdlib Require Import ZArith QArith String Ascii List Lia Permutation.
From stdpp Require Import gmap strings list fin_maps pretty sorting.

Set Default Proof Using "Type".

(* ===================================================================== *)
(** * Part I: the model *)
(* ===================================================================== *)

(** ** Constants of [optimizedChatService.ts] *)

Definition CACHE_DURATION : Z := 30000.
Definition DEBOUNCE_DELAY : Z := 1000.
Definition DEFAULT_CONVERSATION_LIMIT : nat := 25.
Definition DEFAULT_MESSAGE_LIMIT : nat := 50.

(** ** JavaScript primitives used by the sources *)

Module JS.

(** Truthiness of a string value: only the empty string is falsy. *)
Definition truthy (s : string) : bool := negb (String.eqb s EmptyString).

(** [a || b] on possibly-undefined strings: [a] when truthy, else [b] as is. *)
Definition or (a b : option string) : option string :=
  match a with
  | Some s => if truthy s then a else b
  | None => b
  end.

(** [a || 'literal']. *)
Definition orDefault (a : option string) (d : string) : string :=
  match a with
  | Some s => if truthy s then s else d
  | None => d
  end.

(** [String.prototype.toLowerCase] on the ASCII letters; the bytes of the other
    characters are left as they are.  The sources only compare lower-cased
    text with ASCII labels ("operator", the labels of the [switch]), and no
    string holding a character outside ASCII lower-cases to one of them
    (U+212A gives k, which no label has; U+0130 keeps a combining dot): such
    a comparison fails in the source as it does here. *)
Definition lowerAscii (c : ascii) : ascii :=
  let n := nat_of_ascii c in
  if (65 <=? n)%nat && (n <=? 90)%nat then ascii_of_nat (n + 32) else c.

Fixpoint toLowerCase (s : string) : string :=
  match s with
  | EmptyString => EmptyString
  | String c s' => String (lowerAscii c) (toLowerCase s')
  end.

(** White space as [String.prototype.trim] and the class [\s] of regular
    expressions know it: the WhiteSpace and LineTerminator code points of
    ECMAScript.  In UTF-8 they take
    - one byte: U+0009 to U+000D (TAB, LF, VT, FF, CR) and U+0020 (SPACE);
    - two bytes: U+00A0 (no-break space) = C2 A0;
    - three bytes: U+1680 = E1 9A 80; U+2000 to U+200A, U+2028, U+2029 and
      U+202F = E2 80 80..8A, E2 80 A8, E2 80 A9 and E2 80 AF; U+205F =
      E2 81 9F; U+3000 = E3 80 80; U+FEFF = EF BB BF. *)
Definition isWhiteSpace (c : ascii) : bool :=
  let n := nat_of_ascii c in
  ((9 <=? n)%nat && (n <=? 13)%nat) || (n =? 32)%nat.

Definition isWhiteSpace2 (c1 c2 : ascii) : bool :=
  (nat_of_ascii c1 =? 194)%nat && (nat_of_ascii c2 =? 160)%nat.

Definition isWhiteSpace3 (c1 c2 c3 : ascii) : bool :=
  let n1 := nat_of_ascii c1 in
  let n2 := nat_of_ascii c2 in
  let n3 := nat_of_ascii c3 in
  ((n1 =? 225)%nat && (n2 =? 154)%nat && (n3 =? 128)%nat)
  || ((n1 =? 226)%nat && (n2 =? 128)%nat
      && (((128 <=? n3)%nat && (n3 <=? 138)%nat)
          || (n3 =? 168)%nat || (n3 =? 169)%nat || (n3 =? 175)%nat))
  || ((n1 =? 226)%nat && (n2 =? 129)%nat && (n3 =? 159)%nat)
  || ((n1 =? 227)%nat && (n2 =? 128)%nat && (n3 =? 128)%nat)
  || ((n1 =? 239)%nat && (n2 =? 187)%nat && (n3 =? 191)%nat).

(** The number of bytes of the white-space character that [s] starts with;
    0 when [s] starts with none. *)
Definition whiteSpaceLength (s : string) : nat :=
  match s with
  | EmptyString => 0
  | String c1 r1 =>
      if isWhiteSpace c1 then 1
      else match r1 with
           | EmptyString => 0
           | String c2 r2 =>
               if isWhiteSpace2 c1 c2 then 2
               else match r2 with
                    | EmptyString => 0
                    | String c3 _ => if isWhiteSpace3 c1 c2 c3 then 3 else 0
                    end
           end
  end.

(** [s] without the white-space characters in front of it, once [skip] more
    bytes of the character being removed are gone. *)
Fixpoint dropWhiteSpace (skip : nat) (s : string) : string :=
  match s with
  | EmptyString => EmptyString
  | String _ s' =>
      match skip with
      | S k => dropWhiteSpace k s'
      | O => match whiteSpaceLength s with
             | O => s
             | S k => dropWhiteSpace k s'
             end
      end
  end.

Definition trimStart (s : string) : string := dropWhiteSpace 0 s.

(** [s] is made of white-space characters only, [skip] bytes into one. *)
Fixpoint onlyWhiteSpace (skip : nat) (s : string) : bool :=
  match s with
  | EmptyString => (skip =? 0)%nat
  | String _ s' =>
      match skip with
      | S k => onlyWhiteSpace k s'
      | O => match whiteSpaceLength s with
             | O => false
             | S k => onlyWhiteSpace k s'
             end
      end
  end.

(** [s] up to the white-space characters it ends with. *)
Fixpoint trimEnd (s : string) : string :=
  match s with
  | EmptyString => EmptyString
  | String c s' =>
      if onlyWhiteSpace 0 s then EmptyString else String c (trimEnd s')
  end.

Definition trim (s : string) : string := trimEnd (trimStart s).

(** A string with no white space in front. *)
Definition startsClean (s : string) : Prop := whiteSpaceLength s = 0.

(** Two white-space characters outside ASCII, as they are encoded: U+00A0
    (no-break space) and U+2003 (em space). *)
Definition noBreakSpace : string := String "194" (String "160" EmptyString).
Definition emSpace : string :=
  String "226" (String "128" (String "131" EmptyString)).


(** [Array.prototype.sort(compareFn)]: a stable sort; [x] is placed before
    the first element [y] with [compareFn(x, y) <= 0]. *)
Section Sort.
Context {A : Type} (compareFn : A → A → Z).

Fixpoint insertSorted (x : A) (l : list A) : list A :=
  match l with
  | [] => [x]
  | y :: l' => if (compareFn x y <=? 0)%Z then x :: y :: l'
               else y :: insertSorted x l'
  end.

Definition sort (l : list A) : list A := foldr insertSorted [] l.
End Sort.


End JS.

(** ** Expiring cache: [getCachedData] / [setCachedData] *)

Module Cache.

Record CachedData (T : Type) : Type := mkCached {
  data : T;
  timestamp : Z;
  expiresAt : Z
}.
Arguments mkCached {T}.
Arguments data {T}.
Arguments timestamp {T}.
Arguments expiresAt {T}.

Section Ops.
Context {T : Type}.

(** [getCachedData key], run at instant [now].  Returns the value handed
    back to the caller ([None] is [null]) and the cache after the call. *)
Definition getCachedData (now : Z) (key : string)
    (cache : gmap string (CachedData T))
  : option T * gmap string (CachedData T) :=
  match cache !! key with
  | None => (None, cache)
  | Some cached =>
      if (expiresAt cached <? now)%Z
      then (None, delete key cache)
      else (Some (data cached), cache)
  end.

(** [setCachedData key data duration], run at instant [now] (both clock
    reads of the body fall in the same synchronous step). *)
Definition setCachedData (now : Z) (key : string) (d : T) (duration : Z)
    (cache : gmap string (CachedData T)) : gmap string (CachedData T) :=
  <[ key := mkCached d now (now + duration)%Z ]> cache.
End Ops.

End Cache.

(** ** Usage meter: [getUsageStats], [incrementReads], [incrementWrites],
       [checkRateLimit] *)

Module Usage.

Record FirebaseUsageStats : Type := mkUsage {
  reads : Z;
  writes : Z;
  lastReset : Z
}.

(** [(now - lastReset) / (1000 * 60 * 60)], an exact rational. *)
Definition hoursSinceReset (now : Z) (st : FirebaseUsageStats) : Q :=
  (inject_Z (now - lastReset st) / inject_Z (1000 * 60 * 60))%Q.

(** [getUsageStats()]: the returned copy and the meter after the call. *)
Definition getUsageStats (now : Z) (st : FirebaseUsageStats)
  : FirebaseUsageStats * FirebaseUsageStats :=
  let st' := if Qle_bool 24 (hoursSinceReset now st)
             then mkUsage 0 0 now
             else st in
  (st', st').

Definition incrementReads (count : Z) (st : FirebaseUsageStats)
  : FirebaseUsageStats :=
  mkUsage (reads st + count) (writes st) (lastReset st).

Definition incrementWrites (count : Z) (st : FirebaseUsageStats)
  : FirebaseUsageStats :=
  mkUsage (reads st) (writes st + count) (lastReset st).

(** What [checkRateLimit] prints with [console.warn]. *)
Inductive warning : Type :=
| LimitExceeded   (* "Firebase read limit exceeded, ALL Firebase features disabled" *)
| ApproachingLimit (* "Approaching Firebase read limit" *).

Definition maxReadsPerDay : Z := 500.

Record rateCheck : Type := mkRateCheck {
  allowed : bool;
  warned : option warning;
  meter : FirebaseUsageStats
}.

(** [checkRateLimit()], run at instant [now].  The factor [0.8] is the
    rational 8/10; the counters are integers, for which the comparison with
    the floating-point product (400) gives the same answer. *)
Definition checkRateLimit (now : Z) (st : FirebaseUsageStats) : rateCheck :=
  let '(stats, st') := getUsageStats now st in
  if (maxReadsPerDay <? reads stats)%Z
  then mkRateCheck false (Some LimitExceeded) st'
  else if Qle_bool (inject_Z (reads stats)) (inject_Z maxReadsPerDay * (8 # 10))%Q
       then mkRateCheck true None st'
       else mkRateCheck true (Some ApproachingLimit) st'.

End Usage.

(** ** Subscription coalescer: [setupDebouncedListener] and the clean-up paths

    The registry is parametric in the type [F] of listener factories
    ([() => Unsubscribe]).  Invoking a factory opens a subscription on the
    remote store; the [Unsubscribe] it returns closes that subscription.  The
    state records the runtime's pending timeouts and the store's open
    subscriptions next to the two static maps, so that the maps can be
    compared with what is really pending and really open.

    [setTypingStatus] keeps its own timeouts in [debounceTimers] under keys
    that start with [typing_]; the listener keys start with [conv_listener_],
    [msg_listener_] or [presence_listener_], so the two families never share
    a key.  The typing timeouts are not part of this model. *)

Module Coalescer.

Section WithFactory.
Context {F : Type}.

(** A timeout created by [setTimeout] and not yet run or cleared. *)
Record timer : Type := mkTimer {
  tid : nat;        (* the handle [setTimeout] returned *)
  due : Z;          (* instant from which the callback may run *)
  tkey : string;    (* [key] captured by the callback *)
  tfn : F           (* [listenerFn] captured by the callback *)
}.

(** A subscription opened by a factory call and not yet unsubscribed. *)
Record listener : Type := mkListener {
  lid : nat;        (* identifies the [Unsubscribe] closure *)
  lkey : string;    (* key under which the callback registered it *)
  lfn : F           (* the factory that produced it *)
}.

Record state : Type := mkState {
  now : Z;
  nextTimer : nat;
  nextListener : nat;
  runtimeTimers : list timer;          (* pending timeouts, oldest first *)
  openListeners : list listener;       (* live subscriptions, oldest first *)
  debounceTimers : gmap string nat;    (* [debounceTimers]: key -> timeout handle *)
  activeListeners : gmap string nat;   (* [activeListeners]: key -> Unsubscribe *)
  invocations : list (string * F)      (* factory calls so far, oldest first *)
}.

Definition init (t0 : Z) : state :=
  mkState t0 1 1 [] [] ∅ ∅ [].

(** [clearTimeout(h)]: no effect when [h] already ran or was cleared. *)
Definition clearTimeout (h : nat) (st : state) : state :=
  mkState (now st) (nextTimer st) (nextListener st)
          (filter (λ t, tid t ≠ h) (runtimeTimers st))
          (openListeners st) (debounceTimers st) (activeListeners st)
          (invocations st).

(** Calling an [Unsubscribe]: idempotent. *)
Definition unsubscribe (u : nat) (st : state) : state :=
  mkState (now st) (nextTimer st) (nextListener st)
          (runtimeTimers st)
          (filter (λ l, lid l ≠ u) (openListeners st))
          (debounceTimers st) (activeListeners st) (invocations st).

(** [setTimeout(cb, delay)]: a negative delay counts as 0. *)
Definition setTimeout (key : string) (listenerFn : F) (delay : Z)
    (st : state) : nat * state :=
  let h := nextTimer st in
  (h, mkState (now st) (S h) (nextListener st)
              (runtimeTimers st ++ [mkTimer h (now st + Z.max 0 delay) key listenerFn])
              (openListeners st) (debounceTimers st) (activeListeners st)
              (invocations st)).

Definition setDebounceTimers (m : gmap string nat) (st : state) : state :=
  mkState (now st) (nextTimer st) (nextListener st) (runtimeTimers st)
          (openListeners st) m (activeListeners st) (invocations st).

Definition setActiveListeners (m : gmap string nat) (st : state) : state :=
  mkState (now st) (nextTimer st) (nextListener st) (runtimeTimers st)
          (openListeners st) (debounceTimers st) m (invocations st).

(** "Clear existing timer": [const existingTimer = debounceTimers.get(key);
    if (existingTimer) clearTimeout(existingTimer)].  Handles start at 1,
    so a stored handle is always truthy. *)
Definition clearExistingTimer (key : string) (st : state) : state :=
  match debounceTimers st !! key with
  | Some existingTimer => clearTimeout existingTimer st
  | None => st
  end.

(** "Clear existing listener": [const existingListener =
    activeListeners.get(key); if (existingListener) existingListener()]. *)
Definition clearExistingListener (key : string) (st : state) : state :=
  match activeListeners st !! key with
  | Some existingListener => unsubscribe existingListener st
  | None => st
  end.

(** [setupDebouncedListener(key, listenerFn, delay)]. *)
Definition setupDebouncedListener (key : string) (listenerFn : F)
    (delay : Z) (st : state) : state :=
  let st1 := clearExistingTimer key st in
  let st2 := clearExistingListener key st1 in
  (* Set new debounced timer *)
  let '(timer, st3) := setTimeout key listenerFn delay st2 in
  setDebounceTimers (<[ key := timer ]> (debounceTimers st3)) st3.

(** The body of the timeout callback, for the timeout [t] being run:
    [const unsubscribe = listenerFn(); activeListeners.set(key, unsubscribe);
     debounceTimers.delete(key)]. *)
Definition runCallback (t : timer) (st : state) : state :=
  let u := nextListener st in
  mkState (now st) (nextTimer st) (S u)
          (filter (λ t', tid t' ≠ tid t) (runtimeTimers st))
          (openListeners st ++ [mkListener u (tkey t) (tfn t)])
          (delete (tkey t) (debounceTimers st))
          (<[ tkey t := u ]> (activeListeners st))
          (invocations st ++ [(tkey t, tfn t)]).

(** The clean-up closure returned by [subscribeToConversations],
    [subscribeToMessages] and [subscribeToPresence] for [listenerKey]. *)
Definition unsubscribeKey (listenerKey : string) (st : state) : state :=
  let st1 := match debounceTimers st !! listenerKey with
             | Some timer =>
                 let st' := clearTimeout timer st in
                 setDebounceTimers (delete listenerKey (debounceTimers st')) st'
             | None => st
             end in
  match activeListeners st1 !! listenerKey with
  | Some listener =>
      let st' := unsubscribe listener st1 in
      setActiveListeners (delete listenerKey (activeListeners st')) st'
  | None => st1
  end.

(** The registry part of [cleanup()]. *)
Definition cleanup (st : state) : state :=
  let st1 := map_fold (λ _ timer acc, clearTimeout timer acc) st (debounceTimers st) in
  let st2 := setDebounceTimers ∅ st1 in
  let st3 := map_fold (λ _ u acc, unsubscribe u acc) st2 (activeListeners st2) in
  setActiveListeners ∅ st3.

(** *** The event loop's view of timeouts *)

(** Earliest pending timeout that is due at instant [t]; among equal due
    instants the one created first. *)
Fixpoint nextDue (t : Z) (l : list timer) : option timer :=
  match l with
  | [] => None
  | x :: l' =>
      match nextDue t l' with
      | Some y => if (due x <=? t)%Z && (due x <=? due y)%Z then Some x else Some y
      | None => if (due x <=? t)%Z then Some x else None
      end
  end.

Definition tick (t : Z) (st : state) : state :=
  mkState (Z.max (now st) t) (nextTimer st) (nextListener st)
          (runtimeTimers st) (openListeners st) (debounceTimers st)
          (activeListeners st) (invocations st).

(** Run the next due timeout, if there is one. *)
Definition fireNext (st : state) : state :=
  match nextDue (now st) (runtimeTimers st) with
  | Some t => runCallback t st
  | None => st
  end.

Fixpoint fireMany (n : nat) (st : state) : state :=
  match n with
  | O => st
  | S n' => fireMany n' (fireNext st)
  end.

(** Let the clock reach [t] and run every timeout that is due by then. *)
Definition advance (t : Z) (st : state) : state :=
  let st' := tick t st in
  fireMany (length (runtimeTimers st')) st'.

(** *** Reachable registry states *)

Inductive step : state -> state -> Prop :=
| step_setup key fn delay st :
    step st (setupDebouncedListener key fn delay st)
| step_unsubscribe key st :
    step st (unsubscribeKey key st)
| step_cleanup st :
    step st (cleanup st)
| step_tick t st :
    step st (tick t st)
| step_fire st :
    step st (fireNext st).

Inductive reachable : state -> Prop :=
| reach_init t0 : reachable (init t0)
| reach_step st st' : reachable st -> step st st' -> reachable st'.

(** Projections on one key. *)
Definition timersFor (k : string) (st : state) : list timer :=
  filter (λ t, tkey t = k) (runtimeTimers st).

Definition listenersFor (k : string) (st : state) : list listener :=
  filter (λ l, lkey l = k) (openListeners st).

Definition invocationsFor (k : string) (st : state) : list (string * F) :=
  filter (λ p, fst p = k) (invocations st).

(** Everything the registry holds about key [k]. *)
Definition view (k : string) (st : state) :=
  (timersFor k st, listenersFor k st, invocationsFor k st,
   debounceTimers st !! k, activeListeners st !! k).

(** The registry invariant. *)
Record wf (st : state) : Prop := mkWf {
  wf_timer_registered :
    ∀ t, t ∈ runtimeTimers st → debounceTimers st !! tkey t = Some (tid t);
  wf_timer_ids : NoDup (tid <$> runtimeTimers st);
  wf_timer_fresh : ∀ t, t ∈ runtimeTimers st → tid t < nextTimer st;
  wf_listener_registered :
    ∀ l, l ∈ openListeners st → activeListeners st !! lkey l = Some (lid l);
  wf_listener_ids : NoDup (lid <$> openListeners st);
  wf_listener_fresh : ∀ l, l ∈ openListeners st → lid l < nextListener st;
  wf_torn_down :
    ∀ t l, t ∈ runtimeTimers st → l ∈ openListeners st → tkey t ≠ lkey l
}.

End WithFactory.

Arguments timer : clear implicits.
Arguments listener : clear implicits.
Arguments state : clear implicits.

End Coalescer.

(** ** Chat types ([types/chat.ts]) and the remote store *)

Module Chat.

Inductive SenderType : Type := operator | customer.
Inductive MessageType : Type := text | image | file | voice.
Inductive DeliveryStatus : Type := sent | delivered | read.
Inductive PresenceStatus : Type := online | offline | away.

Record MessageReaction : Type := mkReaction {
  reactionUserId : string;
  emoji : string;
  reactionTimestamp : Z
}.

Record MessageAttachment : Type := mkAttachment {
  attachmentId : string;
  attachmentName : string;
  url : string;
  attachmentType : string;
  size : Z
}.

Record ChatMessage : Type := mkMessage {
  id : string;
  conversationId : string;
  senderId : string;
  senderType : SenderType;
  content : string;
  messageType : MessageType;
  timestamp : Z;
  status : DeliveryStatus;
  reactions : list MessageReaction;
  attachments : list MessageAttachment
}.

Record UserPresence : Type := mkPresence {
  userId : string;
  presenceStatus : PresenceStatus;
  lastSeen : Z;
  isTyping : bool;
  typingInConversation : option string
}.

(** A document of the [user_presence] collection, as stored. *)
Record PresenceDoc : Type := mkPresenceDoc {
  docUserId : string;
  docStatus : PresenceStatus;
  docLastSeen : option Z;
  docIsTyping : option bool;
  docTypingInConversation : option string
}.

(** The fields of a [conversations] document that [sendMessage] writes. *)
Record ConversationDoc : Type := mkConversation {
  lastMessageAt : Z;
  updatedAt : Z;
  unreadCount : Z
}.

(** The remote store: [chat_messages] and [conversations] by document id,
    and [user_presence]. *)
Record Remote : Type := mkRemote {
  messagesCollection : gmap string ChatMessage;
  conversationsCollection : gmap string ConversationDoc;
  presenceCollection : list PresenceDoc
}.

End Chat.

(** ** The service as a whole: presence and message subscriptions, message
       send, and the hook's [sendMessage] *)

Module Service.
Import Chat.

(** What the static cache holds ([CachedData<any>]). *)
Inductive CacheValue : Type :=
| CachedMessages (messages : list ChatMessage)
| CachedPresence (presence : gmap string UserPresence).

(** The listener factories passed to [setupDebouncedListener], with the
    variables their closures capture; callbacks of the caller are named by
    numbers. *)
Inductive Factory : Type :=
| MessagesFactory (cacheKey conversationId : string) (limitCount : nat) (callback : nat)
| PresenceFactory (cacheKey : string) (limitedUserIds : list string) (callback : nat).

Record State : Type := mkService {
  cache : gmap string (Cache.CachedData CacheValue);
  usageStats : Usage.FirebaseUsageStats;
  registry : Coalescer.state Factory;
  delivered : list (nat * CacheValue)   (* calls of the callers' callbacks, oldest first *)
}.

Definition clock (st : State) : Z := Coalescer.now (registry st).

Definition withCache (c : gmap string (Cache.CachedData CacheValue)) (st : State) : State :=
  mkService c (usageStats st) (registry st) (delivered st).

Definition withUsage (u : Usage.FirebaseUsageStats) (st : State) : State :=
  mkService (cache st) u (registry st) (delivered st).

Definition withRegistry (r : Coalescer.state Factory) (st : State) : State :=
  mkService (cache st) (usageStats st) r (delivered st).

Definition call (callback : nat) (payload : CacheValue) (st : State) : State :=
  mkService (cache st) (usageStats st) (registry st)
            (delivered st ++ [(callback, payload)]).

(** "Check cache first": [const cached = getCachedData(key); if (cached)
    callback(cached)]; arrays and objects are truthy. *)
Definition replayCached (cacheKey : string) (callback : nat) (st : State) : State :=
  let '(cached, cache') := Cache.getCachedData (clock st) cacheKey (cache st) in
  let st' := withCache cache' st in
  match cached with
  | Some payload => call callback payload st'
  | None => st'
  end.

(** The value returned by the subscribe functions. *)
Inductive Unsubscribe : Type :=
| Noop                           (* [() => {}] *)
| CleanupOf (listenerKey : string).


(** *** [subscribeToPresence] *)



(** The store's answer to [where('userId', 'in', limitedUserIds)]. *)
Definition wherePresenceIn (limitedUserIds : list string)
    (collection : list PresenceDoc) : list PresenceDoc :=
  filter (λ d, docUserId d ∈ limitedUserIds) collection.

(** The [onSnapshot] callback of the presence listener, for a snapshot
    holding [docs]. *)
Definition presenceMapOf (now : Z) (docs : list PresenceDoc) : gmap string UserPresence :=
  foldl (λ presenceMap d,
           <[ docUserId d :=
                mkPresence (docUserId d) (docStatus d)
                           (default now (docLastSeen d))
                           (default false (docIsTyping d))
                           (docTypingInConversation d) ]> presenceMap)
        ∅ docs.

Definition onPresenceSnapshot (cacheKey : string) (callback : nat)
    (docs : list PresenceDoc) (st : State) : State :=
  let st1 := withUsage (Usage.incrementReads (Z.of_nat (length docs)) (usageStats st)) st in
  let presenceMap := presenceMapOf (clock st1) docs in
  let st2 := withCache (Cache.setCachedData (clock st1) cacheKey
                          (CachedPresence presenceMap) CACHE_DURATION (cache st1)) st1 in
  call callback (CachedPresence presenceMap) st2.

(** *** [subscribeToMessages] *)

Definition messagesCacheKey (conversationId : string) (limitCount : nat) : string :=
  "messages_" +:+ conversationId +:+ "_" +:+ pretty limitCount.

Definition subscribeToMessages (conversationId : string) (callback : nat)
    (limitCount : nat) (st : State) : Unsubscribe * State :=
  let cacheKey := messagesCacheKey conversationId limitCount in
  let listenerKey := "msg_listener_" +:+ conversationId in
  let st1 := replayCached cacheKey callback st in
  let st2 := withRegistry
               (Coalescer.setupDebouncedListener listenerKey
                  (MessagesFactory cacheKey conversationId limitCount callback)
                  DEBOUNCE_DELAY (registry st1)) st1 in
  (CleanupOf listenerKey, st2).

(** The [onSnapshot] callback of the messages listener; [docs] are the
    documents of the snapshot, newest first as the query orders them. *)
Definition onMessagesSnapshot (cacheKey : string) (callback : nat)
    (docs : list ChatMessage) (st : State) : State :=
  let st1 := withUsage (Usage.incrementReads (Z.of_nat (length docs)) (usageStats st)) st in
  let messages := reverse docs in
  let st2 := withCache (Cache.setCachedData (clock st1) cacheKey
                          (CachedMessages messages) CACHE_DURATION (cache st1)) st1 in
  call callback (CachedMessages messages) st2.

(** The environment: the Firestore client calls the [onSnapshot] callback of
    the open subscription [u], for a presence listener with the documents
    matching its query in [remote], for a messages listener with the documents
    [messageDocs] the store selected.  That the client stops calling a
    callback once its unsubscribe function has run is the client's contract,
    not a check in the sources: the callbacks themselves test nothing. *)
Definition deliverSnapshot (u : nat) (remote : Remote)
    (messageDocs : list ChatMessage) (st : State) : State :=
  match List.find (λ l, Nat.eqb (Coalescer.lid l) u)
                  (Coalescer.openListeners (registry st)) with
  | Some l =>
      match Coalescer.lfn l with
      | PresenceFactory cacheKey limitedUserIds callback =>
          onPresenceSnapshot cacheKey callback
            (wherePresenceIn limitedUserIds (presenceCollection remote)) st
      | MessagesFactory cacheKey _ _ callback =>
          onMessagesSnapshot cacheKey callback messageDocs st
      end
  | None => st
  end.

(** Time passes until [t]; due timeouts run. *)
Definition elapse (t : Z) (st : State) : State :=
  withRegistry (Coalescer.advance t (registry st)) st.

(** *** [OptimizedChatService.sendMessage] *)

(** How [batch.commit()] ends: the store applies the batch, or the promise
    rejects (with the [message] of the error, when it is an [Error]). *)
Inductive CommitOutcome : Type :=
| Committed
| CommitFailed (errorMessage : option string).

Inductive SendResult : Type :=
| Resolved (message : ChatMessage)
| Rejected (errorMessage : option string).

(** [newId] is the id of the fresh document reference, [serverTime] what
    [serverTimestamp()] resolves to, [commit] how the store answers.  The
    batch is atomic: on [Committed] both writes are applied, otherwise none.
    (The store rejects a batch whose [update] names a missing document; such
    a run is a [CommitFailed] one.) *)
Definition sendMessage (newId : string) (serverTime : Z) (commit : CommitOutcome)
    (conversationId senderId : string) (senderType : SenderType)
    (content : string) (messageType : MessageType)
    (remote : Remote) (st : State) : SendResult * Remote * State :=
  let message :=
    mkMessage newId conversationId senderId senderType content messageType
              (clock st) sent [] [] in
  match commit with
  | CommitFailed errorMessage => (Rejected errorMessage, remote, st)
  | Committed =>
    let stored :=
      mkMessage newId conversationId senderId senderType content messageType
                serverTime sent [] [] in
    let remote' :=
      mkRemote
        (<[ newId := stored ]> (messagesCollection remote))
        (alter (λ c, mkConversation serverTime serverTime
                       match senderType with
                       | customer => (unreadCount c + 1)%Z
                       | operator => 0%Z
                       end)
               conversationId (conversationsCollection remote))
        (presenceCollection remote) in
    let st1 := withUsage (Usage.incrementWrites 2 (usageStats st)) st in
    (* Clear relevant caches *)
    let st2 := withCache
                 (delete (messagesCacheKey conversationId DEFAULT_MESSAGE_LIMIT)
                         (cache st1)) st1 in
    (Resolved message, remote', st2)
  end.

(** *** The hook [useOptimizedChatService]: [sendMessage] *)

Record Hook : Type := mkHook {
  currentUser : option string;          (* [currentUser?.uid] *)
  error : option string;
  shownUsage : Usage.FirebaseUsageStats
}.

Inductive HookOutcome : Type :=
| Returned       (* the early [return]: nothing was attempted *)
| Sent           (* the promise resolved *)
| Threw.         (* the error was stored and rethrown *)

(** The message limit the hook passes to [subscribeToMessages]. *)
Definition HOOK_MESSAGE_LIMIT : nat := 100.

(** The text stored by the subscription effects when [checkRateLimit()] is
    false. *)
Definition rateLimitNotice : string :=
  "Rate limit exceeded. Some features temporarily disabled.".

Definition hookSendMessage (newId : string) (serverTime : Z) (commit : CommitOutcome)
    (conversationId content : string)
    (hook : Hook) (remote : Remote) (st : State)
  : HookOutcome * Hook * Remote * State :=
  match currentUser hook with
  | None => (Returned, hook, remote, st)
  | Some uid =>
      if negb (JS.truthy (JS.trim content)) then (Returned, hook, remote, st)
      else
        match sendMessage newId serverTime commit conversationId uid operator
                (JS.trim content) text remote st with
        | (Resolved _, remote', st') =>
            let '(stats, meter) := Usage.getUsageStats (clock st') (usageStats st') in
            (Sent, mkHook (currentUser hook) (error hook) stats, remote',
             withUsage meter st')
        | (Rejected errorMessage, remote', st') =>
            (Threw,
             mkHook (currentUser hook)
                    (Some (default "Failed to send message" errorMessage))
                    (shownUsage hook),
             remote', st')
        end
  end.

(** [cleanup()]: timers, listeners and cache are dropped. *)
Definition cleanup (st : State) : State :=
  mkService ∅ (usageStats st) (Coalescer.cleanup (registry st)) (delivered st).

Definition initial (t0 : Z) : State :=
  mkService ∅ (Usage.mkUsage 0 0 t0) (Coalescer.init t0) [].

End Service.

(** ** Concrete runs of the service *)

Module Scenario.
Import Chat Service.






Definition olderMessage : ChatMessage :=
  mkMessage "m1" "c1" "cust" customer "hi" text 900 sent [] [].

(** The hook subscribes to conversation ["c1"] with its limit of 100; the
    listener settles and receives a snapshot holding [olderMessage]; the
    operator then sends a message. *)
Definition beforeSend : State :=
  let st1 := snd (subscribeToMessages "c1" 1 HOOK_MESSAGE_LIMIT (initial 0)) in
  deliverSnapshot 1 (mkRemote ∅ ∅ []) [olderMessage] (elapse 1000 st1).

Definition afterSend : SendResult * Remote * State :=
  sendMessage "m2" 1500 Committed "c1" "op" operator "hello" text
              (mkRemote {[ "m1" := olderMessage ]} {[ "c1" := mkConversation 900 900 1 ]} [])
              beforeSend.

(** A meter that has counted 501 reads in the current window. *)
Definition overLimit : State :=
  mkService ∅ (Usage.mkUsage 501 0 0) (Coalescer.init 1000) [].

Definition operatorHook : Hook :=
  mkHook (Some "op") None (Usage.mkUsage 501 0 0).

Definition oneConversation : Remote :=
  mkRemote ∅ {[ "c1" := mkConversation 900 900 3 ]} [].

End Scenario.

(** ** Feed normaliser and aggregator: [useOptimizedDataSources]

    The functions below are the [useCallback] bodies of the hook, taken as
    functions of the hook's state ([webhookMessages], [firebaseData],
    [sheetsData], [isRateLimited]), of [config.enabled] and of the clock. *)

Module Feed.

(** [config/dataSources.ts] *)
Inductive DataSource : Type := WEBHOOK | FIREBASE | GOOGLE_SHEETS.

Global Instance DataSource_eq_dec : EqDecision DataSource.
Proof. solve_decision. Defined.

Inductive SenderRole : Type := operator | customer.
Inductive Direction : Type := inbound | outbound.

Record UnifiedMessage : Type := mkUnified {
  id : string;
  phone_number : string;
  name : string;
  product : string;
  category : string;
  intent : string;
  message : string;
  timestamp : Z;
  source : DataSource;
  sender : SenderRole;
  direction : Direction;
  type : string
}.

(** [interface WebhookMessage] *)
Module Webhook.
Record WebhookMessage : Type := mkWebhook {
  phone_number : string;
  name : string;
  product : option string;
  Product : option string;
  category : option string;
  Category : option string;
  intent : option string;
  Intent : option string;
  message : option string;
  Message : option string;
  id : option string;
  timestamp : option string
}.
End Webhook.

(** [interface GoogleSheetsMessage] *)
Module Sheets.
Record GoogleSheetsMessage : Type := mkSheets {
  phone_number : string;
  name : string;
  Product : string;
  Category : string;
  Intent : string;
  Message : string;
  product : option string;
  category : option string;
  intent : option string;
  message : option string;
  timestamp : option string;
  id : option string
}.
End Sheets.

(** A value found in a time-like field of a Firestore document. *)
Inductive TimeValue : Type :=
| TsTimestamp (millis : Z)   (* a Firestore [Timestamp]: has [toDate] and [seconds] *)
| TsSeconds (seconds : Z)    (* a plain object [{ seconds }] *)
| TsString (s : string).     (* a date string *)

(** A Firestore document ([DocumentData]): its string-valued fields and its
    time-valued fields, by field name.  The model covers the documents whose
    text fields hold strings (or are missing), as the schema of the collection
    has them; a value of another type in such a field is outside the model. *)
Record FirebaseDoc : Type := mkDoc {
  texts : gmap string string;
  times : gmap string TimeValue
}.

Definition defaultEnabled : list DataSource := [FIREBASE].

Section WithDates.
(** [new Date(v).getTime()] for a raw value [v]; the model covers the values
    for which this is a valid date. *)
Context (newDate : TimeValue → Z).

(** [v?.toDate ? v.toDate() : ...] *)
Definition viaToDate (v : option TimeValue) : option Z :=
  match v with
  | Some (TsTimestamp millis) => Some millis
  | _ => None
  end.

(** [v?.seconds ? new Date(v.seconds * 1000) : ...]; a zero count is falsy. *)
Definition viaSeconds (v : option TimeValue) : option Z :=
  let nonzero (n : Z) := if (n =? 0)%Z then None else Some (n * 1000)%Z in
  match v with
  | Some (TsTimestamp millis) => nonzero (millis / 1000)%Z
  | Some (TsSeconds seconds) => nonzero seconds
  | _ => None
  end.

(** [typeof v === 'string' ? new Date(v) : ...] *)
Definition viaString (v : option TimeValue) : option Z :=
  match v with
  | Some (TsString s) => Some (newDate (TsString s))
  | _ => None
  end.

(** [v ? new Date(v) : ...] *)
Definition viaTruthy (v : option TimeValue) : option Z :=
  match v with
  | Some (TsString s) => if JS.truthy s then Some (newDate (TsString s)) else None
  | Some v' => Some (newDate v')
  | None => None
  end.

(** The timestamp chain of [getFirebaseMessages]. *)
Definition firebaseTimestamp (now : Z) (doc : FirebaseDoc) : Z :=
  let f (k : string) := times doc !! k in
  default now
    (foldr (λ (candidate rest : option Z),
              match candidate with Some t => Some t | None => rest end)
       None
       [ viaToDate (f "ReceivedAt"); viaSeconds (f "ReceivedAt"); viaString (f "ReceivedAt");
         viaToDate (f "Time"); viaSeconds (f "Time"); viaString (f "Time");
         viaSeconds (f "time");
         viaToDate (f "timestamp");
         viaToDate (f "createdAt");
         viaTruthy (f "updatedAt") ]).

(** The body of the [map] callback of [getFirebaseMessages]. *)
Definition normalizeFirebaseDoc (now : Z) (index : nat) (doc : FirebaseDoc)
  : UnifiedMessage :=
  let f (k : string) := texts doc !! k in
  let senderValue := JS.orDefault (JS.or (f "Sender") (f "sender")) "Customer" in
  let sender := if String.eqb (JS.toLowerCase senderValue) "operator"
                then operator else customer in
  {|
    id := JS.orDefault (f "id") ("firebase-" +:+ pretty now +:+ "-" +:+ pretty index);
    phone_number :=
      JS.orDefault (JS.or (f "Phone Number") (JS.or (f "phone_number") (f "Phone_number"))) "N/A";
    name :=
      JS.orDefault
        (JS.or (f "Profile Name")
           (JS.or (f "name") (JS.or (f "Name") (JS.or (f "customer_name") (f "Customer_name")))))
        "Unknown Customer";
    product := JS.orDefault (JS.or (f "product") (f "Product")) "No product specified";
    category := JS.orDefault (JS.or (f "category") (f "Category")) "Enquiry";
    intent := JS.orDefault (JS.or (f "intent") (f "Intent")) "General";
    message :=
      JS.orDefault
        (JS.or (f "Message") (JS.or (f "message") (JS.or (f "Message_body") (f "message_body"))))
        "No message content";
    timestamp := firebaseTimestamp now doc;
    source := FIREBASE;
    sender := sender;
    direction := match sender with operator => outbound | customer => inbound end;
    type := JS.orDefault (JS.or (f "Type") (f "type")) "text"
  |}.

Definition includes (sources : list DataSource) (x : DataSource) : bool :=
  bool_decide (x ∈ sources).

Definition getFirebaseMessages (enabled : list DataSource)
    (firebaseData : list FirebaseDoc) (isRateLimited : bool) (now : Z)
  : list UnifiedMessage :=
  if negb (includes enabled FIREBASE) || isRateLimited then []
  else imap (normalizeFirebaseDoc now) (take 100 firebaseData).

(** The body of the [map] callback of [getSheetsMessages]. *)
Definition normalizeSheetsRow (now : Z) (index : nat)
    (row : Sheets.GoogleSheetsMessage) : UnifiedMessage :=
  {|
    id := JS.orDefault (Sheets.id row) ("sheets-" +:+ pretty now +:+ "-" +:+ pretty index);
    phone_number := JS.orDefault (Some (Sheets.phone_number row)) EmptyString;
    name := JS.orDefault (Some (Sheets.name row)) EmptyString;
    product := JS.orDefault (JS.or (Sheets.product row) (Some (Sheets.Product row))) EmptyString;
    category := JS.orDefault (JS.or (Sheets.category row) (Some (Sheets.Category row))) EmptyString;
    intent := JS.orDefault (JS.or (Sheets.intent row) (Some (Sheets.Intent row))) EmptyString;
    message := JS.orDefault (JS.or (Sheets.message row) (Some (Sheets.Message row))) EmptyString;
    timestamp :=
      match Sheets.timestamp row with
      | Some s => if JS.truthy s then newDate (TsString s) else now
      | None => now
      end;
    source := GOOGLE_SHEETS;
    sender := customer;
    direction := inbound;
    type := "text"
  |}.

Definition getSheetsMessages (enabled : list DataSource)
    (sheetsData : list Sheets.GoogleSheetsMessage) (now : Z)
  : list UnifiedMessage :=
  if negb (includes enabled GOOGLE_SHEETS) then []
  else imap (normalizeSheetsRow now) (take 15 sheetsData).

(** [isDuplicateMessage(newMsg, existingMessages)] *)
Definition isDuplicateMessage (newMsg : Webhook.WebhookMessage)
    (existingMessages : list UnifiedMessage) : bool :=
  existsb (λ existing,
      bool_decide (phone_number existing = Webhook.phone_number newMsg)
      && bool_decide (Some (message existing)
                      = JS.or (Webhook.message newMsg) (Webhook.Message newMsg))
      && bool_decide (Some (product existing)
                      = JS.or (Webhook.product newMsg) (Webhook.Product newMsg)))
    existingMessages.

(** The comparison passed to [sort] in [getAllMessages]:
    [new Date(b.timestamp).getTime() - new Date(a.timestamp).getTime()]. *)
Definition newestFirst (a b : UnifiedMessage) : Z :=
  (timestamp b - timestamp a)%Z.


(** The messages pushed onto [messages] by [getAllMessages], before sorting. *)
Definition collected (enabled : list DataSource)
    (webhookMessages : list UnifiedMessage) (firebaseData : list FirebaseDoc)
    (sheetsData : list Sheets.GoogleSheetsMessage) (isRateLimited : bool)
    (now : Z) : list UnifiedMessage :=
  (if includes enabled WEBHOOK then take 15 webhookMessages else [])
  ++ (if includes enabled FIREBASE && negb isRateLimited
      then getFirebaseMessages enabled firebaseData isRateLimited now else [])
  ++ (if includes enabled GOOGLE_SHEETS
      then getSheetsMessages enabled sheetsData now else []).

Definition getAllMessages (enabled : list DataSource)
    (webhookMessages : list UnifiedMessage) (firebaseData : list FirebaseDoc)
    (sheetsData : list Sheets.GoogleSheetsMessage) (isRateLimited : bool)
    (now : Z) : list UnifiedMessage :=
  take 100
    (JS.sort newestFirst
       (collected enabled webhookMessages firebaseData sheetsData isRateLimited now)).

End WithDates.

(** *** Casing drift of the Firestore schema

    Field names that exist in a lower-case (modern) and a capitalised
    (legacy) spelling, as read by [getFirebaseMessages]. *)
Definition casingPairs : list (string * string) :=
  [ ("phone_number", "Phone_number"); ("name", "Name");
    ("customer_name", "Customer_name"); ("product", "Product");
    ("category", "Category"); ("intent", "Intent");
    ("message", "Message"); ("message_body", "Message_body");
    ("sender", "Sender"); ("type", "Type") ].

(** A document that has none of the modern spellings. *)
Definition legacyOnly (doc : FirebaseDoc) : Prop :=
  Forall (λ p, texts doc !! fst p = None) casingPairs.

(** A document that has none of the legacy spellings. *)
Definition modernOnly (doc : FirebaseDoc) : Prop :=
  Forall (λ p, texts doc !! snd p = None) casingPairs.

(** [legacy] holds under each legacy spelling what [modern] holds under the
    modern one; the fields that have a single spelling agree. *)
Definition sameValues (legacy modern : FirebaseDoc) : Prop :=
  Forall (λ p, texts legacy !! snd p = texts modern !! fst p) casingPairs
  ∧ texts legacy !! "Phone Number" = texts modern !! "Phone Number"
  ∧ texts legacy !! "Profile Name" = texts modern !! "Profile Name".

(** Test data: the same values under legacy and under modern field names. *)
Definition exampleLegacyDoc : FirebaseDoc :=
  mkDoc {[ "Phone_number" := "+1"; "Name" := "Ava"; "Product" := "Tee";
           "Category" := " Follow-Up"; "Message" := "Hi"; "Sender" := "Operator" ]} ∅.

Definition exampleModernDoc : FirebaseDoc :=
  mkDoc {[ "phone_number" := "+1"; "name" := "Ava"; "product" := "Tee";
           "category" := " Follow-Up"; "message" := "Hi"; "sender" := "Operator" ]} ∅.

(** Test data: [n] documents whose [ReceivedAt] instants are 1, 2, ..., [n],
    in that (arrival) order. *)
Definition docsByAge (n : nat) : list FirebaseDoc :=
  (λ i, mkDoc ∅ {[ "ReceivedAt" := TsTimestamp (Z.of_nat i) ]}) <$> seq 1 n.

End Feed.

(** ** [mapWebhookCategory] of [pages/ChatDashboard.tsx] *)

Module Dashboard.

(** The [case] labels of the [switch], with the value returned for each. *)
Definition categoryTable : list (string * string) :=
  [ ("new order", "new-orders"); ("neworder", "new-orders");
    ("purchase request", "new-orders"); ("purchaserequest", "new-orders");
    ("order", "new-orders");
    ("enquiry", "enquiries"); ("inquiry", "enquiries");
    ("question", "enquiries"); ("general", "enquiries");
    ("follow up", "follow-ups"); ("followup", "follow-ups");
    ("follow-up", "follow-ups");
    ("complaint", "complaints"); ("complaints", "complaints");
    ("issue", "complaints");
    ("return", "returns"); ("returns", "returns");
    ("return request", "returns"); ("refund", "returns") ].

Fixpoint switch (table : list (string * string)) (x : string) : option string :=
  match table with
  | [] => None
  | (label, result) :: table' =>
      if String.eqb x label then Some result else switch table' x
  end.

Definition mapWebhookCategory (category : string) : string :=
  let normalizedCategory := JS.trim (JS.toLowerCase (JS.orDefault (Some category) EmptyString)) in
  default "enquiries" (switch categoryTable normalizedCategory).

End Dashboard.

(** ** Further invariant of the listener registry

    What the two static maps point at: a stored timeout handle is a timeout
    that is still pending and belongs to that key; a stored [Unsubscribe]
    was produced for that key (it may already have been called). *)

Module CoalescerMaps.
Import Coalescer.

Section WithFactory.
Context {F : Type}.

Record wfMaps (st : state F) : Prop := mkWfMaps {
  entry_is_pending :
    ∀ k h, debounceTimers st !! k = Some h →
           ∃ t, t ∈ runtimeTimers st ∧ tid t = h ∧ tkey t = k;
  entry_is_old : ∀ k u, activeListeners st !! k = Some u → u < nextListener st;
  entry_names_key :
    ∀ k u l, activeListeners st !! k = Some u → l ∈ openListeners st →
             lid l = u → lkey l = k
}.

End WithFactory.
End CoalescerMaps.

(** ** Sequences of sends *)

Module ServiceRuns.
Import Chat Service.

(** One call of [sendMessage] whose batch commits: the id of the new
    document, the server's time, and the arguments of the call. *)
Record Send : Type := mkSend {
  sendId : string;
  sendServerTime : Z;
  sendSenderId : string;
  sendSenderType : SenderType;
  sendContent : string
}.

(** The calls [sends], one after the other, all in conversation
    [conversationId]. *)
Definition sendAll (conversationId : string) (sends : list Send)
    (remote : Remote) (st : State) : Remote * State :=
  foldl (λ (acc : Remote * State) (x : Send),
           let r := sendMessage (sendId x) (sendServerTime x) Committed
                      conversationId (sendSenderId x) (sendSenderType x)
                      (sendContent x) text (fst acc) (snd acc) in
           (snd (fst r), snd r))
        (remote, st) sends.

(** The presence value the [onSnapshot] callback builds for one document. *)
Definition presenceOfDoc (now : Z) (d : PresenceDoc) : UserPresence :=
  mkPresence (docUserId d) (docStatus d) (default now (docLastSeen d))
             (default false (docIsTyping d)) (docTypingInConversation d).

End ServiceRuns.

(** ** Reading and writing the Google sheet ([useGoogleSheets]) *)

Module SheetsFetch.
Import Feed.

(** [row[i] || ''] *)
Definition cell (row : list string) (i : nat) : string :=
  JS.orDefault (row !! i) EmptyString.

(** The body of the [map] callback of [fetchSheetsData]; [now] is
    [Date.now()] and [nowIso] is [new Date().toISOString()], read once for the
    whole sheet. *)
Definition parseRow (now : Z) (nowIso : string) (index : nat) (row : list string)
  : Sheets.GoogleSheetsMessage :=
  {|
    Sheets.id := Some ("sheets-" +:+ pretty now +:+ "-" +:+ pretty index);
    Sheets.phone_number := cell row 0;
    Sheets.name := cell row 1;
    Sheets.Product := cell row 2;
    Sheets.Category := cell row 3;
    Sheets.Intent := cell row 4;
    Sheets.Message := cell row 5;
    Sheets.product := None;
    Sheets.category := None;
    Sheets.intent := None;
    Sheets.message := None;
    Sheets.timestamp := Some (JS.orDefault (row !! 6) nowIso)
  |}.

(** [fetchSheetsData] past its guard ([enabled], a spreadsheet id and an API
    key are set) on a successful response whose [values] is [values]: the new
    [data].  When the guard fails the function returns at once and [data]
    stays as it is; [useOptimizedDataSources] calls the hook with
    [enabled: false], so there [data] is always empty. *)
Definition fetchSheetsData (now : Z) (nowIso : string)
    (values : option (list (list string))) : list Sheets.GoogleSheetsMessage :=
  let rows := default [] values in
  imap (parseRow now nowIso) (drop 1 rows).

(** The row [addMessage] appends to the sheet. *)
Definition appendedRow (timestamp : string) (message : Sheets.GoogleSheetsMessage)
  : list string :=
  [ Sheets.phone_number message; Sheets.name message; Sheets.Product message;
    Sheets.Category message; Sheets.Intent message; Sheets.Message message;
    timestamp ].

End SheetsFetch.

(** ** The dashboard's views of the feed ([ChatDashboard.tsx]) *)

Module DashboardViews.
Import Feed Dashboard.

Record DisplayMessage : Type := mkDisplay {
  displayId : string;
  displayCategory : string;
  displayMessage : string;
  displayCustomer : string;
  displayPhone : string;
  displayProduct : string;
  displayIntent : string;
  displayDate : string;
  displayTime : string;
  displaySource : DataSource
}.

Record Order : Type := mkOrder {
  orderId : string;
  orderCustomer : string;
  orderPhone : string;
  orderProduct : string;
  orderIntent : string;
  orderMessage : string;
  orderTotal : string;
  orderSource : DataSource
}.

Record ChatEntry : Type := mkChatEntry {
  chatId : string;
  chatMessage : string;
  chatSender : SenderRole;
  chatTimestamp : Z;
  chatPhone : string;
  chatName : string;
  chatSource : DataSource
}.

Section WithLocale.
(** [toLocaleDateString()] and [toLocaleTimeString([], ...)] of an instant. *)
Context (toLocaleDateString toLocaleTimeString : Z → string).

Definition convertToDisplayMessage (now : Z) (msg : UnifiedMessage) : DisplayMessage :=
  {|
    displayId := JS.orDefault (Some (id msg)) ("msg-" +:+ pretty now);
    displayCategory := mapWebhookCategory (category msg);
    displayMessage := JS.orDefault (Some (message msg)) "No message content";
    displayCustomer := JS.orDefault (Some (name msg)) "Unknown Customer";
    displayPhone := JS.orDefault (Some (phone_number msg)) "N/A";
    displayProduct := JS.orDefault (Some (product msg)) "No product specified";
    displayIntent := JS.orDefault (Some (intent msg)) "General";
    displayDate := toLocaleDateString (timestamp msg);
    displayTime := toLocaleTimeString (timestamp msg);
    displaySource := source msg
  |}.

Definition allMessages (now : Z) (allSourceMessages : list UnifiedMessage)
  : list DisplayMessage :=
  convertToDisplayMessage now <$> allSourceMessages.

Definition getMessagesCount (now : Z) (allSourceMessages : list UnifiedMessage)
    (category : string) : nat :=
  length (filter (λ msg, displayCategory msg = category)
                 (allMessages now allSourceMessages)).

End WithLocale.

(** The test of the [filter] callback of [newOrders]. *)
Definition isNewOrder (msg : UnifiedMessage) : bool :=
  let category := JS.toLowerCase (JS.orDefault (Some (category msg)) EmptyString) in
  String.eqb category "new order" || String.eqb category "purchase request"
  || String.eqb category "order" || String.eqb category "neworder"
  || String.eqb category "purchaserequest".

Definition newOrders (allSourceMessages : list UnifiedMessage) : list Order :=
  imap (λ index msg,
          {| orderId := "#" +:+ pretty (1007 + index);
             orderCustomer := JS.orDefault (Some (name msg)) "Unknown Customer";
             orderPhone := JS.orDefault (Some (phone_number msg)) "N/A";
             orderProduct := JS.orDefault (Some (product msg)) "No product specified";
             orderIntent := JS.orDefault (Some (intent msg)) "General";
             orderMessage := JS.orDefault (Some (message msg)) "No message content";
             orderTotal := "$99.00";
             orderSource := source msg |})
       (filter (λ msg, isNewOrder msg = true) allSourceMessages).

(** [phone.replace(/[\s\-\(\)]/g, '')]: every white-space character (the
    class [\s], see [JS.whiteSpaceLength]), dash and parenthesis is removed. *)
Definition isPhonePunctuation (c : ascii) : bool :=
  Ascii.eqb c "-" || Ascii.eqb c "(" || Ascii.eqb c ")".

Fixpoint removePunctuation (skip : nat) (phone : string) : string :=
  match phone with
  | EmptyString => EmptyString
  | String c phone' =>
      match skip with
      | S k => removePunctuation k phone'
      | O => match JS.whiteSpaceLength phone with
             | S k => removePunctuation k phone'
             | O => if isPhonePunctuation c then removePunctuation 0 phone'
                    else String c (removePunctuation 0 phone')
             end
      end
  end.

Definition normalizePhone (phone : string) : string := removePunctuation 0 phone.

(** The comparison passed to [sort] in [openChatForCustomer]. *)
Definition oldestFirst (a b : ChatEntry) : Z :=
  (chatTimestamp a - chatTimestamp b)%Z.

Definition notNewer (a b : ChatEntry) : Prop :=
  (chatTimestamp a <= chatTimestamp b)%Z.

Definition samePhone (customerPhone : string) (msg : UnifiedMessage) : Prop :=
  normalizePhone (JS.orDefault (Some (phone_number msg)) EmptyString)
  = normalizePhone customerPhone.

Global Instance samePhone_dec customerPhone msg : Decision (samePhone customerPhone msg).
Proof. unfold samePhone. apply _. Defined.

(** The body of the [map] callback of [openChatForCustomer]; the messages of
    the model always carry a sender, so [msg.sender || 'customer'] is that
    sender. *)
Definition toChatEntry (customerName : string) (msg : UnifiedMessage) : ChatEntry :=
  {| chatId := id msg;
     chatMessage := message msg;
     chatSender := sender msg;
     chatTimestamp := timestamp msg;
     chatPhone := phone_number msg;
     chatName := JS.orDefault (Some (name msg)) customerName;
     chatSource := source msg |}.

(** The list [openChatForCustomer] stores in [chatMessages]. *)
Definition openChatForCustomer (customerPhone customerName : string)
    (allSourceMessages : list UnifiedMessage) : list ChatEntry :=
  JS.sort oldestFirst
    (toChatEntry customerName <$> filter (samePhone customerPhone) allSourceMessages).

End DashboardViews.

(* ===================================================================== *)
(** * Part II: properties *)
(* ===================================================================== *)

Module CacheFacts.
Import Cache.

Lemma get_after_set_live {T} now s key (v : T) t (cache : gmap string (CachedData T)) :
  (now <= s + t)%Z ->
  getCachedData now key (setCachedData s key v t cache)
  = (Some v, setCachedData s key v t cache).
Proof.
  intros Hle. unfold getCachedData, setCachedData.
  rewrite lookup_insert_eq. simpl.
  destruct (Z.ltb_spec (s + t) now) as [Hlt | _]; [lia | reflexivity].
Qed.

Lemma get_after_set_expired {T} now s key (v : T) t (cache : gmap string (CachedData T)) :
  (s + t < now)%Z ->
  getCachedData now key (setCachedData s key v t cache)
  = (None, delete key cache).
Proof.
  intros Hlt. unfold getCachedData, setCachedData.
  rewrite lookup_insert_eq. simpl.
  destruct (Z.ltb_spec (s + t) now) as [_ | Hle]; [| lia].
  by rewrite delete_insert_eq.
Qed.

(** C5 (as amended).  An entry written at instant [s] with duration [t] is
    handed back unchanged, and stays in the cache, at every instant up to
    and including [s + t]; at every instant strictly after [s + t] the read
    reports it absent and removes it. *)
Theorem cache_entry_lifetime {T} (key : string) (v : T) (t s now : Z)
    (cache : gmap string (CachedData T)) :
  let cache' := setCachedData s key v t cache in
  ((now <= s + t)%Z → getCachedData now key cache' = (Some v, cache'))
  ∧ ((s + t < now)%Z →
       fst (getCachedData now key cache') = None
       ∧ snd (getCachedData now key cache') = delete key cache
       ∧ snd (getCachedData now key cache') !! key = None).
Proof.
  simpl. split; intros H.
  - by apply get_after_set_live.
  - rewrite get_after_set_expired by done. simpl.
    split; [done |]. split; [done |]. apply lookup_delete_eq.
Qed.

Lemma cache_entry_lifetime_witness :
  getCachedData 29999 "messages_c1_50"
    (setCachedData 0 "messages_c1_50" 7%nat CACHE_DURATION ∅)
  = (Some 7%nat, setCachedData 0 "messages_c1_50" 7%nat CACHE_DURATION ∅)
  ∧ fst (getCachedData 30001 "messages_c1_50"
           (setCachedData 0 "messages_c1_50" 7%nat CACHE_DURATION ∅)) = None.
Proof.
  split.
  - apply (cache_entry_lifetime "messages_c1_50" 7%nat CACHE_DURATION 0 29999 ∅).
    unfold CACHE_DURATION. lia.
  - apply (cache_entry_lifetime "messages_c1_50" 7%nat CACHE_DURATION 0 30001 ∅).
    unfold CACHE_DURATION. lia.
Defined.

(** C5 as stated fails on the boundary: read exactly at [s + t], the entry
    is still returned and is not removed. *)
Lemma cache_read_at_expiry_counterexample :
  let cache := setCachedData 0 "messages_c1_50" 7%nat CACHE_DURATION ∅ in
  (0 + CACHE_DURATION <= 30000)%Z
  ∧ fst (getCachedData 30000 "messages_c1_50" cache) = Some 7%nat
  ∧ fst (getCachedData 30000 "messages_c1_50" cache) ≠ None
  ∧ snd (getCachedData 30000 "messages_c1_50" cache) !! "messages_c1_50" ≠ None.
Proof.
  simpl. unfold CACHE_DURATION.
  rewrite get_after_set_live by lia. simpl.
  unfold setCachedData. rewrite lookup_insert_eq.
  split; [lia |]. done.
Qed.

End CacheFacts.

Module UsageFacts.
Import Usage.

Lemma window_elapsed_iff now st :
  Qle_bool 24 (hoursSinceReset now st) = true <-> (86400000 <= now - lastReset st)%Z.
Proof.
  rewrite Qle_bool_iff. unfold hoursSinceReset, Qle, Qdiv, Qmult, Qinv, inject_Z.
  simpl. lia.
Qed.

Lemma window_open_iff now st :
  Qle_bool 24 (hoursSinceReset now st) = false <-> (now - lastReset st < 86400000)%Z.
Proof.
  pose proof (window_elapsed_iff now st) as H.
  destruct (Qle_bool 24 (hoursSinceReset now st)); split; intros H'; try done.
  - assert (86400000 <= now - lastReset st)%Z by by apply H. lia.
  - destruct (Z.le_gt_cases 86400000 (now - lastReset st)) as [Hle | Hgt]; [| lia].
    apply H in Hle. done.
Qed.

Lemma near_ceiling_iff (r : Z) :
  Qle_bool (inject_Z r) (inject_Z maxReadsPerDay * (8 # 10))%Q = true <-> (r <= 400)%Z.
Proof.
  rewrite Qle_bool_iff. unfold Qle, Qmult, inject_Z, maxReadsPerDay. simpl. lia.
Qed.

Lemma getUsageStats_in_window now st :
  (now - lastReset st < 86400000)%Z → getUsageStats now st = (st, st).
Proof.
  intros H. unfold getUsageStats. apply window_open_iff in H. by rewrite H.
Qed.

Lemma getUsageStats_after_window now st :
  (86400000 <= now - lastReset st)%Z →
  getUsageStats now st = (mkUsage 0 0 now, mkUsage 0 0 now).
Proof.
  intros H. unfold getUsageStats. apply window_elapsed_iff in H. by rewrite H.
Qed.

Lemma checkRateLimit_unfold now st :
  checkRateLimit now st =
  let m := snd (getUsageStats now st) in
  if (500 <? reads m)%Z then mkRateCheck false (Some LimitExceeded) m
  else if (reads m <=? 400)%Z then mkRateCheck true None m
       else mkRateCheck true (Some ApproachingLimit) m.
Proof.
  unfold checkRateLimit, getUsageStats. cbv zeta. cbn [snd].
  set (m := if Qle_bool 24 (hoursSinceReset now st) then _ else _).
  change (maxReadsPerDay <? reads m)%Z with (500 <? reads m)%Z.
  destruct (500 <? reads m)%Z; [done |].
  pose proof (near_ceiling_iff (reads m)) as Hnear.
  destruct (Qle_bool (inject_Z (reads m)) _);
    destruct (Z.leb_spec (reads m) 400); try done.
  - assert (reads m <= 400)%Z by by apply Hnear. lia.
  - apply Hnear in H. done.
Qed.

(** C7.  [checkRateLimit] compares the reads counter of the snapshot it
    takes with the ceiling of 500: it answers [true] exactly when the counter
    is at most 500 and [false] exactly when it is above; between 80 percent
    of the ceiling and the ceiling it only warns and still answers [true].
    Inside the 24-hour window the snapshot is the meter itself, which the
    call leaves unchanged. *)
Theorem checkRateLimit_flips_at_ceiling (now : Z) (st : FirebaseUsageStats) :
  let r := checkRateLimit now st in
  meter r = snd (getUsageStats now st)
  ∧ (allowed r = true ↔ (reads (meter r) <= 500)%Z)
  ∧ (allowed r = false ↔ (500 < reads (meter r))%Z)
  ∧ ((400 < reads (meter r) <= 500)%Z →
       allowed r = true ∧ warned r = Some ApproachingLimit)
  ∧ ((reads (meter r) <= 400)%Z → allowed r = true ∧ warned r = None)
  ∧ ((now - lastReset st < 86400000)%Z →
       meter r = st ∧ (allowed r = true ↔ (reads st <= 500)%Z)).
Proof.
  intros r. subst r. rewrite checkRateLimit_unfold.
  set (m := snd (getUsageStats now st)). cbv zeta.
  assert (Hwin : (now - lastReset st < 86400000)%Z → m = st).
  { intros H. subst m. by rewrite getUsageStats_in_window. }
  destruct (Z.ltb_spec 500 (reads m)); [| destruct (Z.leb_spec (reads m) 400)];
    simpl; (split; [done |]);
    repeat split; intros; try done; try lia;
    try (by apply Hwin); rewrite <- ?Hwin in * by done; try done; lia.
Qed.

Lemma checkRateLimit_flips_at_ceiling_witness :
  allowed (checkRateLimit 1000 (mkUsage 500 0 0)) = true
  ∧ allowed (checkRateLimit 1000 (mkUsage 501 0 0)) = false
  ∧ warned (checkRateLimit 1000 (mkUsage 450 0 0)) = Some ApproachingLimit.
Proof.
  split; [| split].
  - destruct (checkRateLimit_flips_at_ceiling 1000 (mkUsage 500 0 0))
      as (_ & _ & _ & _ & _ & H).
    apply H; simpl; lia.
  - destruct (checkRateLimit_flips_at_ceiling 1000 (mkUsage 501 0 0))
      as (_ & _ & H & _).
    apply H.
    assert (E : reads (meter (checkRateLimit 1000 (mkUsage 501 0 0))) = 501%Z)
      by (vm_compute; reflexivity).
    rewrite E. lia.
  - destruct (checkRateLimit_flips_at_ceiling 1000 (mkUsage 450 0 0))
      as (_ & _ & _ & H & _).
    apply H.
    assert (E : reads (meter (checkRateLimit 1000 (mkUsage 450 0 0))) = 450%Z)
      by (vm_compute; reflexivity).
    rewrite E. lia.
Defined.

(** C8.  Once 24 hours have passed since [lastReset], [getUsageStats]
    returns, and installs, zeroed counters with [lastReset] set to the
    current instant, whatever the counters were; [checkRateLimit] goes
    through the same reset.  The reset exists nowhere else: the two
    increment operations keep [lastReset] and only add to their counter, and
    a snapshot taken inside the window changes nothing. *)
Theorem getUsageStats_lazy_reset (now : Z) (st : FirebaseUsageStats) :
  (86400000 <= now - lastReset st)%Z →
  getUsageStats now st = (mkUsage 0 0 now, mkUsage 0 0 now)
  ∧ meter (checkRateLimit now st) = mkUsage 0 0 now
  ∧ (∀ n, incrementReads n st = mkUsage (reads st + n) (writes st) (lastReset st))
  ∧ (∀ n, incrementWrites n st = mkUsage (reads st) (writes st + n) (lastReset st))
  ∧ (∀ now' st', (now' - lastReset st' < 86400000)%Z →
                 snd (getUsageStats now' st') = st').
Proof.
  intros Hold. split_and!.
  - by apply getUsageStats_after_window.
  - unfold checkRateLimit. rewrite getUsageStats_after_window by done.
    reflexivity.
  - done.
  - done.
  - intros now' st' Hwin. by rewrite getUsageStats_in_window.
Qed.

Lemma getUsageStats_lazy_reset_witness :
  getUsageStats 86400000 (mkUsage 123456 789 0)
  = (mkUsage 0 0 86400000, mkUsage 0 0 86400000).
Proof.
  apply (getUsageStats_lazy_reset 86400000 (mkUsage 123456 789 0)). simpl. lia.
Defined.

End UsageFacts.

Module CoalescerFacts.
Import Coalescer.

Section WithFactory.
Context {F : Type}.
Implicit Types (st : state F) (t : timer F) (l : listener F) (k key : string).

Lemma NoDup_fmap_filter {A B} (f : A → B) (P : A → Prop)
    `{∀ x, Decision (P x)} (xs : list A) :
  NoDup (f <$> xs) → NoDup (f <$> filter P xs).
Proof.
  induction xs as [| x xs IH]; simpl; [done |].
  rewrite NoDup_cons. intros [Hx Hnd].
  rewrite filter_cons. destruct (decide (P x)); [| by apply IH].
  simpl. apply NoDup_cons. split; [| by apply IH].
  intros Hin. apply Hx.
  apply list_elem_of_fmap in Hin as (y & -> & Hy).
  apply list_elem_of_filter in Hy as [_ Hy].
  by apply list_elem_of_fmap_2.
Qed.

Lemma constant_image_short {A B} (f : A → B) (c : B) (xs : list A) :
  NoDup (f <$> xs) → (∀ x, x ∈ xs → f x = c) → length xs ≤ 1.
Proof.
  destruct xs as [| x [| y xs]]; simpl; [lia | lia |].
  intros Hnd Hc. exfalso.
  apply NoDup_cons in Hnd as [Hx _]. apply Hx.
  rewrite (Hc x), <- (Hc y); [ | | ]; [left | set_solver | set_solver].
Qed.

(** *** The invariant is preserved by every operation *)

Lemma wf_init (start : Z) : wf (init (F := F) start).
Proof.
  constructor; simpl; try (intros; set_solver); constructor.
Qed.

Lemma wf_clearTimeout h st : wf st → wf (clearTimeout h st).
Proof.
  intros [H1 H2 H3 H4 H5 H6 H7]. constructor; simpl; try done.
  - intros t [_ Ht]%list_elem_of_filter. by apply H1.
  - by apply NoDup_fmap_filter.
  - intros t [_ Ht]%list_elem_of_filter. by apply H3.
  - intros t l [_ Ht]%list_elem_of_filter Hl. by apply H7.
Qed.

Lemma wf_unsubscribe u st : wf st → wf (unsubscribe u st).
Proof.
  intros [H1 H2 H3 H4 H5 H6 H7]. constructor; simpl; try done.
  - intros l [_ Hl]%list_elem_of_filter. by apply H4.
  - by apply NoDup_fmap_filter.
  - intros l [_ Hl]%list_elem_of_filter. by apply H6.
  - intros t l Ht [_ Hl]%list_elem_of_filter. by apply H7.
Qed.

(** After the "clear existing timer" step no timeout is pending for [key]. *)
Lemma clearExistingTimer_none key st :
  wf st → ∀ t, t ∈ runtimeTimers (clearExistingTimer key st) → tkey t ≠ key.
Proof.
  intros Hwf t Ht <-. unfold clearExistingTimer in Ht.
  destruct (debounceTimers st !! tkey t) as [h |] eqn:Hk; simpl in Ht.
  - apply list_elem_of_filter in Ht as [Hne Ht].
    apply (wf_timer_registered _ Hwf) in Ht. congruence.
  - apply (wf_timer_registered _ Hwf) in Ht. congruence.
Qed.

Lemma clearExistingListener_none key st :
  wf st → ∀ l, l ∈ openListeners (clearExistingListener key st) → lkey l ≠ key.
Proof.
  intros Hwf l Hl <-. unfold clearExistingListener in Hl.
  destruct (activeListeners st !! lkey l) as [u |] eqn:Hk; simpl in Hl.
  - apply list_elem_of_filter in Hl as [Hne Hl].
    apply (wf_listener_registered _ Hwf) in Hl. congruence.
  - apply (wf_listener_registered _ Hwf) in Hl. congruence.
Qed.

Lemma wf_clearExistingTimer key st : wf st → wf (clearExistingTimer key st).
Proof.
  intros Hwf. unfold clearExistingTimer.
  destruct (debounceTimers st !! key); [by apply wf_clearTimeout | done].
Qed.

Lemma wf_clearExistingListener key st : wf st → wf (clearExistingListener key st).
Proof.
  intros Hwf. unfold clearExistingListener.
  destruct (activeListeners st !! key); [by apply wf_unsubscribe | done].
Qed.

Lemma setup_unfold key fn delay st :
  setupDebouncedListener key fn delay st =
  let st2 := clearExistingListener key (clearExistingTimer key st) in
  mkState (now st2) (S (nextTimer st2)) (nextListener st2)
          (runtimeTimers st2 ++ [mkTimer (nextTimer st2) (now st2 + Z.max 0 delay) key fn])
          (openListeners st2)
          (<[ key := nextTimer st2 ]> (debounceTimers st2))
          (activeListeners st2) (invocations st2).
Proof. reflexivity. Qed.

Lemma clearExistingListener_timers key st :
  runtimeTimers (clearExistingListener key st) = runtimeTimers st.
Proof. unfold clearExistingListener. by destruct (activeListeners st !! key). Qed.

Lemma wf_setup key fn delay st :
  wf st → wf (setupDebouncedListener key fn delay st).
Proof.
  intros Hwf. rewrite setup_unfold.
  pose proof (clearExistingTimer_none key st Hwf) as Hnot.
  pose proof (wf_clearExistingTimer key st Hwf) as Hwf1.
  pose proof (clearExistingListener_none key _ Hwf1) as Hnol.
  pose proof (wf_clearExistingListener key _ Hwf1) as Hwf2.
  rewrite <- (clearExistingListener_timers key) in Hnot.
  set (st2 := clearExistingListener key (clearExistingTimer key st)) in *.
  destruct Hwf2 as [H1 H2 H3 H4 H5 H6 H7]. constructor; simpl.
  - intros t [Ht | ->%list_elem_of_singleton]%elem_of_app.
    + rewrite lookup_insert_ne; [by apply H1 |].
      intros E. by apply (Hnot t Ht).
    + simpl. by rewrite lookup_insert_eq.
  - rewrite fmap_app. apply NoDup_app. split; [done |]. split.
    + intros h (t & -> & Ht)%list_elem_of_fmap [E | []%elem_of_nil]%elem_of_cons.
      apply H3 in Ht. simpl in E. lia.
    + simpl. apply NoDup_singleton.
  - intros t [Ht | ->%list_elem_of_singleton]%elem_of_app; simpl; [| lia].
    apply H3 in Ht. lia.
  - done.
  - done.
  - done.
  - intros t l [Ht | ->%list_elem_of_singleton]%elem_of_app Hl.
    + by apply H7.
    + simpl. intros E. by apply (Hnol l Hl).
Qed.

Lemma nextDue_Some now0 (ts : list (timer F)) t :
  nextDue now0 ts = Some t → t ∈ ts ∧ (due t <= now0)%Z.
Proof.
  revert t. induction ts as [| x ts IH]; simpl; [done |].
  intros t. destruct (nextDue now0 ts) as [y |].
  - specialize (IH y eq_refl) as [Hy Hdue].
    destruct (Z.leb_spec (due x) now0); simpl.
    + destruct (due x <=? due y)%Z; intros E; injection E as E; subst t;
        (split; [| done]); [left | by right].
    + intros E; injection E as E; subst t. split; [by right | done].
  - destruct (Z.leb_spec (due x) now0); [| done].
    intros E; injection E as E; subst t. split; [left | done].
Qed.

Lemma nextDue_None now0 (ts : list (timer F)) :
  nextDue now0 ts = None ↔ ∀ t, t ∈ ts → (now0 < due t)%Z.
Proof.
  induction ts as [| x ts IH]; simpl.
  - split; [intros _ t Ht; set_solver | done].
  - destruct (nextDue now0 ts) as [y |].
    + split.
      * by destruct ((due x <=? now0)%Z && (due x <=? due y)%Z).
      * intros Hall. destruct IH as [_ IH].
        discriminate IH. intros t Ht. apply Hall. set_solver.
    + destruct (Z.leb_spec (due x) now0) as [Hle | Hlt].
      * split; [done |]. intros Hall.
        assert (Hx : x ∈ x :: ts) by left. apply Hall in Hx. lia.
      * split; [| done]. intros _ t [-> | Ht]%elem_of_cons; [done |].
        by apply IH.
Qed.

Lemma wf_runCallback t st :
  wf st → t ∈ runtimeTimers st → wf (runCallback t st).
Proof.
  intros Hwf Hin. pose proof Hwf as [H1 H2 H3 H4 H5 H6 H7].
  assert (Hsame : ∀ t', t' ∈ runtimeTimers st → tkey t' = tkey t → tid t' = tid t).
  { intros t' Ht' E. apply H1 in Ht'. apply H1 in Hin. congruence. }
  constructor; simpl.
  - intros t' [Hne Ht']%list_elem_of_filter.
    rewrite lookup_delete_ne; [by apply H1 |].
    intros E. apply Hne. by apply Hsame.
  - by apply NoDup_fmap_filter.
  - intros t' [_ Ht']%list_elem_of_filter. by apply H3.
  - intros l [Hl | ->%list_elem_of_singleton]%elem_of_app; simpl.
    + rewrite lookup_insert_ne; [by apply H4 |].
      intros E. by apply (H7 t l).
    + by rewrite lookup_insert_eq.
  - rewrite fmap_app. apply NoDup_app. split; [done |]. split.
    + intros h (l & -> & Hl)%list_elem_of_fmap [E | []%elem_of_nil]%elem_of_cons.
      apply H6 in Hl. simpl in E. lia.
    + simpl. apply NoDup_singleton.
  - intros l [Hl | ->%list_elem_of_singleton]%elem_of_app; simpl; [| lia].
    apply H6 in Hl. lia.
  - intros t' l [Hne Ht']%list_elem_of_filter
           [Hl | ->%list_elem_of_singleton]%elem_of_app.
    + by apply H7.
    + simpl. intros E. apply Hne. by apply Hsame.
Qed.

Lemma wf_fireNext st : wf st → wf (fireNext st).
Proof.
  intros Hwf. unfold fireNext.
  destruct (nextDue (now st) (runtimeTimers st)) as [t |] eqn:E; [| done].
  apply nextDue_Some in E as [Hin _]. by apply wf_runCallback.
Qed.

Lemma wf_fireMany n st : wf st → wf (fireMany n st).
Proof.
  revert st. induction n as [| n IH]; simpl; [done |].
  intros st Hwf. by apply IH, wf_fireNext.
Qed.

Lemma wf_tick now' st : wf st → wf (tick now' st).
Proof. by intros [H1 H2 H3 H4 H5 H6 H7]. Qed.

Lemma wf_advance now' st : wf st → wf (advance now' st).
Proof. intros Hwf. by apply wf_fireMany, wf_tick. Qed.

Lemma wf_setDebounceTimers_delete key st :
  wf st → (∀ t, t ∈ runtimeTimers st → tkey t ≠ key) →
  wf (setDebounceTimers (delete key (debounceTimers st)) st).
Proof.
  intros [H1 H2 H3 H4 H5 H6 H7] Hnone. constructor; simpl; try done.
  intros t Ht. rewrite lookup_delete_ne; [by apply H1 |].
  intros E. by apply (Hnone t).
Qed.

Lemma wf_setActiveListeners_delete key st :
  wf st → (∀ l, l ∈ openListeners st → lkey l ≠ key) →
  wf (setActiveListeners (delete key (activeListeners st)) st).
Proof.
  intros [H1 H2 H3 H4 H5 H6 H7] Hnone. constructor; simpl; try done.
  intros l Hl. rewrite lookup_delete_ne; [by apply H4 |].
  intros E. by apply (Hnone l).
Qed.

Lemma wf_unsubscribeKey key st : wf st → wf (unsubscribeKey key st).
Proof.
  intros Hwf. unfold unsubscribeKey.
  pose proof (clearExistingTimer_none key st Hwf) as Hnot.
  pose proof (wf_clearExistingTimer key st Hwf) as Hwf1.
  unfold clearExistingTimer in Hnot, Hwf1.
  set (st1 := match debounceTimers st !! key with
              | Some timer => _ | None => st end).
  assert (Hwf1' : wf st1).
  { subst st1. destruct (debounceTimers st !! key); [| done].
    by apply (wf_setDebounceTimers_delete key (clearTimeout _ _)). }
  pose proof (clearExistingListener_none key st1 Hwf1') as Hnol.
  pose proof (wf_clearExistingListener key st1 Hwf1') as Hwf2.
  unfold clearExistingListener in Hnol, Hwf2.
  destruct (activeListeners st1 !! key); [| done].
  by apply (wf_setActiveListeners_delete key (unsubscribe _ _)).
Qed.

Lemma clearAll_timers st (m : gmap string nat) :
  let st' := map_fold (λ _ timer acc, clearTimeout timer acc) st m in
  (wf st → wf st') ∧
  (∀ t, t ∈ runtimeTimers st' →
        t ∈ runtimeTimers st ∧ ∀ key, m !! key ≠ Some (tid t)) ∧
  openListeners st' = openListeners st ∧
  debounceTimers st' = debounceTimers st ∧
  activeListeners st' = activeListeners st.
Proof.
  simpl. apply (map_fold_weak_ind (λ acc m,
    (wf st → wf acc) ∧
    (∀ t, t ∈ runtimeTimers acc →
          t ∈ runtimeTimers st ∧ ∀ key, m !! key ≠ Some (tid t)) ∧
    openListeners acc = openListeners st ∧
    debounceTimers acc = debounceTimers st ∧
    activeListeners acc = activeListeners st)).
  - split_and!; try done;
      intros x Hx; (split; [done | intros key; by rewrite lookup_empty]).
  - intros i h m' acc Hi (Hwf & Hts & Hl & Hd & Ha).
    split_and!; simpl; try done.
    + intros Hst. by apply wf_clearTimeout, Hwf.
    + intros x [Hne Hx]%list_elem_of_filter. split; [by apply Hts |].
      intros key. destruct (decide (i = key)) as [<- | Hik].
      * rewrite lookup_insert_eq. congruence.
      * rewrite lookup_insert_ne by done. by apply Hts.
Qed.

Lemma clearAll_listeners st (m : gmap string nat) :
  let st' := map_fold (λ _ u acc, unsubscribe u acc) st m in
  (wf st → wf st') ∧
  (∀ l, l ∈ openListeners st' →
        l ∈ openListeners st ∧ ∀ key, m !! key ≠ Some (lid l)) ∧
  runtimeTimers st' = runtimeTimers st ∧
  debounceTimers st' = debounceTimers st ∧
  activeListeners st' = activeListeners st.
Proof.
  simpl. apply (map_fold_weak_ind (λ acc m,
    (wf st → wf acc) ∧
    (∀ l, l ∈ openListeners acc →
          l ∈ openListeners st ∧ ∀ key, m !! key ≠ Some (lid l)) ∧
    runtimeTimers acc = runtimeTimers st ∧
    debounceTimers acc = debounceTimers st ∧
    activeListeners acc = activeListeners st)).
  - split_and!; try done;
      intros x Hx; (split; [done | intros key; by rewrite lookup_empty]).
  - intros i h m' acc Hi (Hwf & Hts & Hl & Hd & Ha).
    split_and!; simpl; try done.
    + intros Hst. by apply wf_unsubscribe, Hwf.
    + intros x [Hne Hx]%list_elem_of_filter. split; [by apply Hts |].
      intros key. destruct (decide (i = key)) as [<- | Hik].
      * rewrite lookup_insert_eq. congruence.
      * rewrite lookup_insert_ne by done. by apply Hts.
Qed.

Lemma cleanup_empty st :
  wf st → runtimeTimers (cleanup st) = [] ∧ openListeners (cleanup st) = [].
Proof.
  intros Hwf. unfold cleanup.
  destruct (clearAll_timers st (debounceTimers st)) as (Hwf1 & Ht1 & Hl1 & Hd1 & Ha1).
  set (st1 := map_fold _ st (debounceTimers st)) in *.
  destruct (clearAll_listeners (setDebounceTimers ∅ st1) (activeListeners st1))
    as (_ & Hl2 & Ht2 & _ & _).
  simpl in *.
  set (st3 := map_fold _ _ (activeListeners st1)) in *.
  split.
  - rewrite Ht2. apply elem_of_nil_inv. intros t Ht.
    destruct (Ht1 t Ht) as [Hin Hno].
    apply (Hno (tkey t)). by apply (wf_timer_registered _ Hwf).
  - apply elem_of_nil_inv. intros l Hl.
    destruct (Hl2 l Hl) as [Hin Hno].
    apply (Hno (lkey l)). rewrite Ha1. rewrite Hl1 in Hin.
    by apply (wf_listener_registered _ Hwf).
Qed.

Lemma wf_cleanup st : wf st → wf (cleanup st).
Proof.
  intros Hwf. destruct (cleanup_empty st Hwf) as [Ht Hl].
  constructor; rewrite ?Ht, ?Hl; try (intros; set_solver); constructor.
Qed.

Lemma step_wf st st' : step st st' → wf st → wf st'.
Proof.
  destruct 1; intros Hwf.
  - by apply wf_setup.
  - by apply wf_unsubscribeKey.
  - by apply wf_cleanup.
  - by apply wf_tick.
  - by apply wf_fireNext.
Qed.

Lemma reachable_wf st : reachable st → wf st.
Proof.
  induction 1 as [start | st st' _ IH Hstep]; [apply wf_init |].
  by apply (step_wf st).
Qed.

Lemma reachable_fireMany n st : reachable st → reachable (fireMany n st).
Proof.
  revert st. induction n as [| n IH]; simpl; [done |].
  intros st Hr. apply IH. eapply reach_step; [done | constructor].
Qed.

Lemma reachable_advance now' st : reachable st → reachable (advance now' st).
Proof.
  intros Hr. apply reachable_fireMany.
  eapply reach_step; [done | constructor].
Qed.

(** *** At most one pending timeout and one open subscription per key *)

Lemma at_most_one k st :
  wf st → length (timersFor k st) ≤ 1 ∧ length (listenersFor k st) ≤ 1.
Proof.
  intros Hwf. split.
  - apply (constant_image_short tid (default 0 (debounceTimers st !! k))).
    + apply NoDup_fmap_filter, (wf_timer_ids _ Hwf).
    + intros t [<- Ht]%list_elem_of_filter.
      by rewrite (wf_timer_registered _ Hwf t Ht).
  - apply (constant_image_short lid (default 0 (activeListeners st !! k))).
    + apply NoDup_fmap_filter, (wf_listener_ids _ Hwf).
    + intros l [<- Hl]%list_elem_of_filter.
      by rewrite (wf_listener_registered _ Hwf l Hl).
Qed.

(** *** What one key sees of the operations *)

Lemma filter_filter_implied {A} (P Q : A → Prop)
    `{∀ x, Decision (P x)} `{∀ x, Decision (Q x)} (xs : list A) :
  (∀ x, x ∈ xs → P x → Q x) → filter P (filter Q xs) = filter P xs.
Proof.
  induction xs as [| x xs IH]; intros Himp; [done |].
  rewrite !filter_cons.
  assert (IH' : filter P (filter Q xs) = filter P xs).
  { apply IH. intros y Hy. apply Himp. by right. }
  destruct (decide (Q x)) as [HQ | HQ].
  - rewrite filter_cons. by rewrite IH'.
  - destruct (decide (P x)) as [HP | HP]; [| done].
    exfalso. apply HQ, Himp; [left | done].
Qed.

Lemma filter_none {A} (P : A → Prop) `{∀ x, Decision (P x)} (xs : list A) :
  (∀ x, x ∈ xs → ¬ P x) → filter P xs = [].
Proof.
  intros Hno. apply elem_of_nil_inv.
  intros x [HP Hx]%list_elem_of_filter. by apply (Hno x).
Qed.

Lemma same_key_same_timer st t t' :
  wf st → t ∈ runtimeTimers st → t' ∈ runtimeTimers st →
  tkey t' = tkey t → tid t' = tid t.
Proof.
  intros Hwf Ht Ht' E.
  apply (wf_timer_registered _ Hwf) in Ht, Ht'. congruence.
Qed.

Lemma same_id_same_timer st t t' :
  wf st → t ∈ runtimeTimers st → t' ∈ runtimeTimers st →
  tid t' = tid t → t' = t.
Proof.
  intros Hwf Ht Ht' E. assert (Hdup := wf_timer_ids _ Hwf).
  apply list_elem_of_lookup in Ht as [i Hi], Ht' as [j Hj].
  assert (i = j) as ->; [| congruence].
  apply (NoDup_lookup _ i j (tid t) Hdup); rewrite list_lookup_fmap.
  - by rewrite Hi.
  - rewrite Hj. simpl. by rewrite E.
Qed.

Lemma runCallback_other k t st :
  wf st → t ∈ runtimeTimers st → tkey t ≠ k →
  view k (runCallback t st) = view k st.
Proof.
  intros Hwf Hin Hk. unfold view, timersFor, listenersFor, invocationsFor.
  simpl. f_equal; [f_equal; [f_equal; [f_equal |] |] |].
  - apply filter_filter_implied. intros t' Ht' <- E.
    apply Hk. by rewrite (same_id_same_timer st t t').
  - rewrite filter_app, filter_cons_False, filter_nil by done.
    by rewrite app_nil_r.
  - rewrite filter_app, filter_cons_False, filter_nil by done.
    by rewrite app_nil_r.
  - by rewrite lookup_delete_ne.
  - by rewrite lookup_insert_ne.
Qed.

Lemma fireNext_now st : now (fireNext st) = now st.
Proof.
  unfold fireNext. by destruct (nextDue (now st) (runtimeTimers st)).
Qed.

Lemma fireMany_now n st : now (fireMany n st) = now st.
Proof.
  revert st. induction n as [| n IH]; simpl; [done |].
  intros st. by rewrite IH, fireNext_now.
Qed.

(** While no timeout of [k] is due, running timeouts leaves [k] alone. *)
Lemma fireMany_quiet k n st :
  wf st →
  (∀ t, t ∈ timersFor k st → (now st < due t)%Z) →
  view k (fireMany n st) = view k st.
Proof.
  revert st. induction n as [| n IH]; simpl; [done |].
  intros st Hwf Hlate. unfold fireNext at 1.
  destruct (nextDue (now st) (runtimeTimers st)) as [t |] eqn:E.
  - apply nextDue_Some in E as [Hin Hdue].
    assert (Hk : tkey t ≠ k).
    { intros Hk. assert (Ht : t ∈ timersFor k st).
      { by apply list_elem_of_filter. }
      apply Hlate in Ht. lia. }
    pose proof (runCallback_other k t st Hwf Hin Hk) as Hview.
    rewrite IH; [done | by apply wf_runCallback |].
    injection Hview as Hv _ _ _ _. rewrite Hv. done.
  - by apply IH.
Qed.

(** A due timeout of [k] does run, and its factory is the one invoked. *)
Lemma fireMany_due k n st t :
  wf st → t ∈ runtimeTimers st → tkey t = k → (due t <= now st)%Z →
  length (runtimeTimers st) ≤ n →
  let st' := fireMany n st in
  timersFor k st' = [] ∧
  (∃ l, listenersFor k st' = [l] ∧ lfn l = tfn t ∧
        activeListeners st' !! k = Some (lid l)) ∧
  invocationsFor k st' = invocationsFor k st ++ [(k, tfn t)].
Proof.
  revert st. induction n as [| n IH]; intros st Hwf Hin Hk Hdue Hlen.
  { destruct (runtimeTimers st); [set_solver | simpl in Hlen; lia]. }
  simpl. unfold fireNext at 1 2 3 4.
  destruct (nextDue (now st) (runtimeTimers st)) as [t' |] eqn:E.
  2:{ rewrite nextDue_None in E. apply E in Hin. lia. }
  apply nextDue_Some in E as [Hin' Hdue'].
  destruct (decide (tkey t' = k)) as [Hk' | Hk'].
  - (* the timeout of [k] itself runs *)
    assert (Hids : ∀ x, x ∈ runtimeTimers st → tkey x = k → tid x = tid t').
    { intros x Hx Hxk. apply (same_key_same_timer st); [done.. | congruence]. }
    assert (t' = t) as ->.
    { apply (same_id_same_timer st); [done.. |]. symmetry. by apply Hids. }
    assert (Hwf' := wf_runCallback t st Hwf Hin).
    pose proof (fireMany_quiet k n (runCallback t st) Hwf') as Hq.
    assert (Hnone : timersFor k (runCallback t st) = []).
    { apply filter_none. intros x [Hne Hx]%list_elem_of_filter Hxk.
      apply Hne. by apply Hids. }
    rewrite Hnone in Hq. specialize (Hq ltac:(intros ? []%elem_of_nil)).
    injection Hq as -> -> -> _ ->.
    assert (Hnol : listenersFor k st = []).
    { apply filter_none. intros l Hl Hlk.
      apply (wf_torn_down _ Hwf t l Hin Hl). congruence. }
    unfold listenersFor, invocationsFor in *. simpl.
    rewrite !filter_app, Hnol, Hk.
    rewrite !filter_cons_True, !filter_nil by done.
    split; [done |]. split; [| done].
    eexists. split; [done |]. split; [done |]. by rewrite lookup_insert_eq.
  - (* another key's timeout runs first *)
    assert (Hwf' := wf_runCallback t' st Hwf Hin').
    pose proof (runCallback_other k t' st Hwf Hin' Hk') as Hview.
    injection Hview as Hv1 Hv2 Hv3 Hv4 Hv5.
    destruct (IH (runCallback t' st)) as (R1 & R2 & R3); try done.
    + simpl. apply list_elem_of_filter. split; [| done].
      intros Eid. apply Hk'.
      by rewrite <- (same_id_same_timer st t' t Hwf Hin' Hin Eid).
    + simpl.
      assert (length (filter (λ x, tid x ≠ tid t') (runtimeTimers st))
              < length (runtimeTimers st)); [| lia].
      apply (length_filter_lt _ _ t'); [done | tauto].
    + split; [done |]. split; [done |]. by rewrite R3, Hv3.
Qed.

Lemma setup_view key fn delay st :
  wf st →
  let st' := setupDebouncedListener key fn delay st in
  timersFor key st' = [mkTimer (nextTimer st) (now st + Z.max 0 delay) key fn] ∧
  listenersFor key st' = [] ∧
  invocations st' = invocations st ∧
  now st' = now st.
Proof.
  intros Hwf. rewrite setup_unfold.
  pose proof (clearExistingTimer_none key st Hwf) as Hnot.
  pose proof (wf_clearExistingTimer key st Hwf) as Hwf1.
  pose proof (clearExistingListener_none key _ Hwf1) as Hnol.
  rewrite <- (clearExistingListener_timers key) in Hnot.
  assert (E1 : nextTimer (clearExistingListener key (clearExistingTimer key st))
               = nextTimer st).
  { unfold clearExistingListener, clearExistingTimer.
    destruct (debounceTimers st !! key); simpl;
      by destruct (activeListeners st !! key). }
  assert (E2 : now (clearExistingListener key (clearExistingTimer key st))
               = now st).
  { unfold clearExistingListener, clearExistingTimer.
    destruct (debounceTimers st !! key); simpl;
      by destruct (activeListeners st !! key). }
  assert (E3 : invocations (clearExistingListener key (clearExistingTimer key st))
               = invocations st).
  { unfold clearExistingListener, clearExistingTimer.
    destruct (debounceTimers st !! key); simpl;
      by destruct (activeListeners st !! key). }
  simpl. unfold timersFor, listenersFor. simpl.
  rewrite E1, E2, E3. split_and!; try done.
  - rewrite filter_app, filter_cons_True, filter_nil by done.
    by rewrite (filter_none _ _ Hnot).
  - by apply filter_none.
Qed.

Lemma tick_view k now' st : view k (tick now' st) = view k st.
Proof. reflexivity. Qed.

(** C1.  Two calls of [setupDebouncedListener] for the same key [k], the
    second one made before the delay of the first has elapsed: the timeout
    left pending for [k] is the second one, and once its delay has passed
    exactly one subscription is open for [k], it was produced by [f2], it
    is the handle registered in [activeListeners], and the only factory
    call made for [k] since the first call is that call of [f2] (the first
    factory was not invoked).  Moreover in every reachable state of the
    registry each key has at most one pending timeout and at most one open
    subscription. *)
Theorem setupDebouncedListener_coalesces
    (st : state F) (k : string) (f1 f2 : F) (d1 d2 dt deadline : Z) :
  reachable st →
  (0 <= dt < d1)%Z →
  (now st + dt + Z.max 0 d2 <= deadline)%Z →
  let st1 := setupDebouncedListener k f1 d1 st in
  let st1' := advance (now st + dt) st1 in
  let st2 := setupDebouncedListener k f2 d2 st1' in
  let st3 := advance deadline st2 in
  timersFor k st2 = [mkTimer (nextTimer st1') (now st + dt + Z.max 0 d2) k f2]
  ∧ (∃ l, listenersFor k st3 = [l] ∧ lfn l = f2
          ∧ activeListeners st3 !! k = Some (lid l))
  ∧ invocationsFor k st3 = invocationsFor k st ++ [(k, f2)]
  ∧ timersFor k st3 = []
  ∧ reachable st3
  ∧ (∀ (s : state F) (k' : string), reachable s →
       length (timersFor k' s) ≤ 1 ∧ length (listenersFor k' s) ≤ 1).
Proof.
  intros Hr Hdt Hdeadline st1 st1' st2 st3.
  assert (Hwf := reachable_wf st Hr).
  destruct (setup_view k f1 d1 st Hwf) as (T1 & L1 & I1 & N1).
  fold st1 in T1, L1, I1, N1.
  assert (Hwf1 : wf st1) by by apply wf_setup.
  (* the clock moves by [dt]: the first timeout is not due yet *)
  assert (Hquiet : view k st1' = view k st1).
  { unfold st1', advance.
    rewrite fireMany_quiet; [done | by apply wf_tick |].
    intros t Ht. change (timersFor k (tick (now st + dt) st1))
      with (timersFor k st1) in Ht.
    rewrite T1 in Ht. apply list_elem_of_singleton in Ht as ->.
    change (Z.max (now st1) (now st + dt) < now st + Z.max 0 d1)%Z.
    rewrite N1. lia. }
  assert (Hnow1 : now st1' = (now st + dt)%Z).
  { unfold st1', advance. rewrite fireMany_now.
    change (Z.max (now st1) (now st + dt) = now st + dt)%Z.
    rewrite N1. lia. }
  assert (Hwf1' : wf st1') by by apply wf_advance.
  injection Hquiet as _ _ Hinv1 _ _.
  (* second call *)
  destruct (setup_view k f2 d2 st1' Hwf1') as (T2 & L2 & I2 & N2).
  fold st2 in T2, L2, I2, N2. rewrite Hnow1 in T2.
  assert (Hwf2 : wf st2) by by apply wf_setup.
  (* the clock passes the second delay *)
  set (t2 := mkTimer (nextTimer st1') (now st + dt + Z.max 0 d2) k f2) in *.
  assert (Hin2 : t2 ∈ runtimeTimers (tick deadline st2)).
  { assert (Ht : t2 ∈ timersFor k st2) by (rewrite T2; left).
    by apply list_elem_of_filter in Ht as [_ Ht]. }
  destruct (fireMany_due k (length (runtimeTimers (tick deadline st2)))
              (tick deadline st2) t2) as (R1 & R2 & R3);
    [by apply wf_tick | done | done | | done |].
  { change (now st + dt + Z.max 0 d2 <= Z.max (now st2) deadline)%Z. lia. }
  split; [done |]. split; [done |]. split.
  { unfold st3, advance. rewrite R3.
    change (invocationsFor k (tick deadline st2)) with (invocationsFor k st2).
    unfold invocationsFor at 1. rewrite I2. fold (invocationsFor k st1').
    rewrite Hinv1. unfold invocationsFor at 1. by rewrite I1. }
  split; [done |]. split.
  { apply reachable_advance. eapply reach_step; [| constructor].
    apply reachable_advance. eapply reach_step; [done | constructor]. }
  intros s k' Hs. by apply at_most_one, reachable_wf.
Qed.

End WithFactory.

(** The theorem at a concrete run: two factories [1] and [2] for the
    conversations listener, 500 ms apart, default delay. *)
Lemma setupDebouncedListener_coalesces_witness :
  invocationsFor "conv_listener_all"
    (advance 1500
       (setupDebouncedListener "conv_listener_all" 2%nat DEBOUNCE_DELAY
          (advance 500
             (setupDebouncedListener "conv_listener_all" 1%nat DEBOUNCE_DELAY
                (init 0)))))
  = [("conv_listener_all", 2%nat)].
Proof.
  assert (Hr : reachable (init (F := nat) 0)) by constructor.
  destruct (setupDebouncedListener_coalesces (init 0) "conv_listener_all"
              1%nat 2%nat DEBOUNCE_DELAY DEBOUNCE_DELAY 500 1500 Hr)
    as (_ & _ & H & _).
  - unfold DEBOUNCE_DELAY. lia.
  - unfold DEBOUNCE_DELAY. simpl. lia.
  - exact H.
Defined.

End CoalescerFacts.

Module JSFacts.
Import JS.

Ltac by_ascii_cases c :=
  destruct c as [[] [] [] [] [] [] [] []]; reflexivity.

Lemma lowerAscii_idem c : lowerAscii (lowerAscii c) = lowerAscii c.
Proof. by_ascii_cases c. Qed.

Lemma isWhiteSpace_lower c : isWhiteSpace (lowerAscii c) = isWhiteSpace c.
Proof. by_ascii_cases c. Qed.

Lemma toLowerCase_idem s : toLowerCase (toLowerCase s) = toLowerCase s.
Proof.
  induction s as [| c s IH]; simpl; [done |].
  by rewrite lowerAscii_idem, IH.
Qed.

(** Lower-casing leaves the bytes from 128 on alone and keeps the others
    below 128: it cannot make or break a multi-byte character. *)
Lemma lowerAscii_cases c :
  lowerAscii c = c
  ∨ (nat_of_ascii c <? 128)%nat && (nat_of_ascii (lowerAscii c) <? 128)%nat = true.
Proof. destruct c as [[] [] [] [] [] [] [] []]; (by left) || (by right). Qed.

Lemma eqb_lower c k :
  128 ≤ k → (nat_of_ascii (lowerAscii c) =? k)%nat = (nat_of_ascii c =? k)%nat.
Proof.
  intros Hk. destruct (lowerAscii_cases c) as [-> | H]; [done |].
  apply andb_prop in H as [H1 H2]. apply Nat.ltb_lt in H1, H2.
  rewrite !(proj2 (Nat.eqb_neq _ _)); [done | lia | lia].
Qed.

Lemma leb_lower_l c k :
  128 ≤ k → (k <=? nat_of_ascii (lowerAscii c))%nat = (k <=? nat_of_ascii c)%nat.
Proof.
  intros Hk. destruct (lowerAscii_cases c) as [-> | H]; [done |].
  apply andb_prop in H as [H1 H2]. apply Nat.ltb_lt in H1, H2.
  rewrite !(proj2 (Nat.leb_gt _ _)); [done | lia | lia].
Qed.

Lemma leb_lower_r c k :
  128 ≤ k → (nat_of_ascii (lowerAscii c) <=? k)%nat = (nat_of_ascii c <=? k)%nat.
Proof.
  intros Hk. destruct (lowerAscii_cases c) as [-> | H]; [done |].
  apply andb_prop in H as [H1 H2]. apply Nat.ltb_lt in H1, H2.
  rewrite !(proj2 (Nat.leb_le _ _)); [done | lia | lia].
Qed.

Lemma isWhiteSpace2_lower c1 c2 :
  isWhiteSpace2 (lowerAscii c1) (lowerAscii c2) = isWhiteSpace2 c1 c2.
Proof. unfold isWhiteSpace2. by rewrite !eqb_lower by lia. Qed.

Lemma isWhiteSpace3_lower c1 c2 c3 :
  isWhiteSpace3 (lowerAscii c1) (lowerAscii c2) (lowerAscii c3)
  = isWhiteSpace3 c1 c2 c3.
Proof.
  unfold isWhiteSpace3. cbv zeta.
  by rewrite !eqb_lower, !leb_lower_l, !leb_lower_r by lia.
Qed.

Lemma whiteSpaceLength_lower s :
  whiteSpaceLength (toLowerCase s) = whiteSpaceLength s.
Proof.
  destruct s as [| c1 [| c2 [| c3 r]]]; unfold whiteSpaceLength;
    cbn [toLowerCase];
    by rewrite ?isWhiteSpace_lower, ?isWhiteSpace2_lower, ?isWhiteSpace3_lower.
Qed.

Lemma whiteSpaceLength_cons_lower c s :
  whiteSpaceLength (String (lowerAscii c) (toLowerCase s))
  = whiteSpaceLength (String c s).
Proof. apply (whiteSpaceLength_lower (String c s)). Qed.

Lemma dropWhiteSpace_lower s skip :
  dropWhiteSpace skip (toLowerCase s) = toLowerCase (dropWhiteSpace skip s).
Proof.
  revert skip. induction s as [| c s IH]; intros skip; [done |].
  cbn [toLowerCase dropWhiteSpace]. destruct skip as [| k]; [| apply IH].
  rewrite whiteSpaceLength_cons_lower.
  destruct (whiteSpaceLength (String c s)); [done | apply IH].
Qed.

Lemma onlyWhiteSpace_lower s skip :
  onlyWhiteSpace skip (toLowerCase s) = onlyWhiteSpace skip s.
Proof.
  revert skip. induction s as [| c s IH]; intros skip; [done |].
  cbn [toLowerCase onlyWhiteSpace]. destruct skip as [| k]; [| apply IH].
  rewrite whiteSpaceLength_cons_lower.
  destruct (whiteSpaceLength (String c s)); [done | apply IH].
Qed.

Lemma trimStart_lower s : trimStart (toLowerCase s) = toLowerCase (trimStart s).
Proof. apply dropWhiteSpace_lower. Qed.

Lemma trimEnd_lower s : trimEnd (toLowerCase s) = toLowerCase (trimEnd s).
Proof.
  induction s as [| c s IH]; [done |].
  cbn [toLowerCase trimEnd].
  change (String (lowerAscii c) (toLowerCase s)) with (toLowerCase (String c s)) at 1.
  rewrite onlyWhiteSpace_lower.
  destruct (onlyWhiteSpace 0 (String c s)); [done |].
  cbn [toLowerCase]. by rewrite IH.
Qed.

Lemma trim_lower s : trim (toLowerCase s) = toLowerCase (trim s).
Proof. unfold trim. by rewrite trimStart_lower, trimEnd_lower. Qed.

Lemma dropWhiteSpace_clean s skip : startsClean (dropWhiteSpace skip s).
Proof.
  revert skip. induction s as [| c s IH]; intros skip; [done |].
  cbn [dropWhiteSpace]. destruct skip as [| k]; [| apply IH].
  destruct (whiteSpaceLength (String c s)) eqn:E; [exact E | apply IH].
Qed.

Lemma trimStart_clean s : startsClean (trimStart s).
Proof. apply dropWhiteSpace_clean. Qed.

Lemma trimStart_of_clean s : startsClean s → trimStart s = s.
Proof.
  destruct s as [| c s]; [done |]. unfold startsClean, trimStart.
  cbn [dropWhiteSpace]. by intros ->.
Qed.

Lemma append_nil q : EmptyString +:+ q = q.
Proof. reflexivity. Qed.

Lemma append_cons c a q : String c a +:+ q = String c (a +:+ q).
Proof. reflexivity. Qed.

(** A white-space character in front of [p] is in front of [p +:+ q]. *)
Lemma whiteSpaceLength_app p q :
  whiteSpaceLength p ≠ 0 → whiteSpaceLength (p +:+ q) = whiteSpaceLength p.
Proof.
  destruct p as [| c1 [| c2 [| c3 r]]];
    rewrite ?append_cons, ?append_nil; unfold whiteSpaceLength; intros H.
  - by destruct H.
  - destruct (isWhiteSpace c1); [done | by destruct H].
  - destruct (isWhiteSpace c1); [done |].
    destruct (isWhiteSpace2 c1 c2); [done | by destruct H].
  - done.
Qed.

Lemma onlyWhiteSpace_app a q skip :
  onlyWhiteSpace skip a = true → onlyWhiteSpace 0 q = true →
  onlyWhiteSpace skip (a +:+ q) = true.
Proof.
  revert skip. induction a as [| c a IH]; intros skip Ha Hq.
  - cbn [onlyWhiteSpace] in Ha. apply Nat.eqb_eq in Ha as ->. done.
  - rewrite append_cons. cbn [onlyWhiteSpace] in *.
    destruct skip as [| k]; [| by apply IH].
    rewrite <- append_cons.
    destruct (whiteSpaceLength (String c a)) as [| n] eqn:E; [done |].
    rewrite whiteSpaceLength_app, E by (rewrite E; lia). by apply IH.
Qed.

(** What [trimEnd] removes is white space. *)
Lemma trimEnd_split s :
  ∃ q, s = trimEnd s +:+ q ∧ onlyWhiteSpace 0 q = true.
Proof.
  induction s as [| c s (q & Hq & Hw)]; [by exists EmptyString |].
  cbn [trimEnd]. destruct (onlyWhiteSpace 0 (String c s)) eqn:E.
  - by exists (String c s).
  - exists q. rewrite append_cons. by rewrite <- Hq.
Qed.

Lemma trimEnd_clean s : startsClean s → startsClean (trimEnd s).
Proof.
  unfold startsClean. intros Hs.
  destruct (trimEnd_split s) as (q & Hq & _).
  destruct (decide (whiteSpaceLength (trimEnd s) = 0)) as [| Hne]; [done |].
  pose proof (whiteSpaceLength_app (trimEnd s) q Hne) as H.
  rewrite <- Hq in H. congruence.
Qed.

Lemma trimEnd_idem s : trimEnd (trimEnd s) = trimEnd s.
Proof.
  induction s as [| c s IH]; [done |].
  cbn [trimEnd]. destruct (onlyWhiteSpace 0 (String c s)) eqn:E; [done |].
  cbn [trimEnd]. rewrite IH.
  destruct (onlyWhiteSpace 0 (String c (trimEnd s))) eqn:E2; [| done].
  destruct (trimEnd_split s) as (q & Hq & Hw).
  pose proof (onlyWhiteSpace_app (String c (trimEnd s)) q 0 E2 Hw) as H.
  rewrite append_cons, <- Hq in H. congruence.
Qed.

Lemma trim_idem s : trim (trim s) = trim s.
Proof.
  unfold trim.
  rewrite (trimStart_of_clean (trimEnd (trimStart s))).
  - apply trimEnd_idem.
  - apply trimEnd_clean, trimStart_clean.
Qed.

(** [trim] removes white space outside ASCII as well, and leaves alone the
    characters whose encoding merely shares bytes with it (U+00E0 is C3 A0,
    U+2014 is E2 80 94). *)
Lemma trim_unicode_space :
  trim (noBreakSpace +:+ " Follow-Up" +:+ emSpace +:+ noBreakSpace) = "Follow-Up"
  ∧ trim (noBreakSpace +:+ emSpace) = EmptyString
  ∧ trim (String "195" (String "160" EmptyString))
    = String "195" (String "160" EmptyString)
  ∧ trim (String "226" (String "128" (String "148" EmptyString)))
    = String "226" (String "128" (String "148" EmptyString)).
Proof. by vm_compute. Qed.

Lemma or_None_l b : JS.or None b = b.
Proof. reflexivity. Qed.

(** [(a || b) || d] is [a || (b || d)]. *)
Lemma orDefault_or a b d :
  orDefault (JS.or a b) d = orDefault a (orDefault b d).
Proof.
  destruct a as [s |]; simpl; [| done].
  destruct (truthy s) eqn:E; simpl; [by rewrite E | done].
Qed.

Lemma insertSorted_perm {A} (compareFn : A → A → Z) (x : A) l :
  insertSorted compareFn x l ≡ₚ x :: l.
Proof.
  induction l as [| y l IH]; simpl; [done |].
  destruct (compareFn x y <=? 0)%Z; [done |].
  rewrite IH. apply perm_swap.
Qed.

Lemma sort_perm {A} (compareFn : A → A → Z) (l : list A) :
  JS.sort compareFn l ≡ₚ l.
Proof.
  induction l as [| x l IH]; simpl; [done |].
  by rewrite insertSorted_perm, IH.
Qed.

End JSFacts.

Module FeedFacts.
Import Feed.



Section WithDates.
Context (newDate : TimeValue → Z).






End WithDates.


(** *** Schema drift *)

Ltac split_casing H :=
  unfold legacyOnly, modernOnly, casingPairs in H;
  repeat (apply Forall_cons in H as [? H]); clear H; simpl in *.

Lemma switch_None table x :
  (∀ label result, (label, result) ∈ table → x ≠ label) →
  Dashboard.switch table x = None.
Proof.
  induction table as [| [label result] table IH]; simpl; [done |].
  intros Hno. destruct (String.eqb_spec x label) as [-> | _].
  - exfalso. apply (Hno label result); [left | done].
  - apply IH. intros l r Hin. apply (Hno l r). by right.
Qed.

Lemma mapWebhookCategory_lower c :
  Dashboard.mapWebhookCategory (JS.toLowerCase c) = Dashboard.mapWebhookCategory c.
Proof.
  unfold Dashboard.mapWebhookCategory.
  assert (E : ∀ s, JS.toLowerCase (JS.orDefault (Some s) EmptyString) = JS.toLowerCase s).
  { intros s. simpl. destruct (JS.truthy s) eqn:T; [done |].
    unfold JS.truthy in T. apply negb_false_iff, String.eqb_eq in T. by subst. }
  by rewrite !E, JSFacts.toLowerCase_idem.
Qed.

Lemma mapWebhookCategory_trim c :
  Dashboard.mapWebhookCategory (JS.trim c) = Dashboard.mapWebhookCategory c.
Proof.
  unfold Dashboard.mapWebhookCategory.
  assert (E : ∀ s, JS.toLowerCase (JS.orDefault (Some s) EmptyString) = JS.toLowerCase s).
  { intros s. simpl. destruct (JS.truthy s) eqn:T; [done |].
    unfold JS.truthy in T. apply negb_false_iff, String.eqb_eq in T. by subst. }
  by rewrite !E, <- !JSFacts.trim_lower, JSFacts.trim_idem.
Qed.

(** The classification trims white space outside ASCII too. *)
Lemma mapWebhookCategory_unicode_space :
  Dashboard.mapWebhookCategory ("Order" +:+ JS.noBreakSpace) = "new-orders"
  ∧ Dashboard.mapWebhookCategory (JS.emSpace +:+ "REFUND") = "returns".
Proof. by vm_compute. Qed.

(** C9.  A document that carries only the legacy (capitalised) spellings and
    a document that carries the same values only under the modern
    (lower-case) spellings are normalised to the same category, sender and
    message text (and phone number, name, product, intent, direction, type),
    hence to the same dashboard category.  The dashboard classification
    ignores letter case and surrounding white space, maps the three spellings
    of "follow up" to one category, and sends every label outside the synonym
    table to the default category "enquiries". *)
Theorem normalization_casing_invariant (newDate : TimeValue → Z) (now : Z)
    (i j : nat) (legacy modern : FirebaseDoc) :
  legacyOnly legacy → modernOnly modern → sameValues legacy modern →
  let l := normalizeFirebaseDoc newDate now i legacy in
  let m := normalizeFirebaseDoc newDate now j modern in
  category l = category m ∧ sender l = sender m ∧ message l = message m
  ∧ phone_number l = phone_number m ∧ name l = name m
  ∧ product l = product m ∧ intent l = intent m
  ∧ direction l = direction m ∧ type l = type m
  ∧ Dashboard.mapWebhookCategory (category l)
    = Dashboard.mapWebhookCategory (category m)
  ∧ (∀ c, Dashboard.mapWebhookCategory (JS.toLowerCase c)
          = Dashboard.mapWebhookCategory c)
  ∧ (∀ c, Dashboard.mapWebhookCategory (JS.trim c)
          = Dashboard.mapWebhookCategory c)
  ∧ Dashboard.mapWebhookCategory "follow up" = "follow-ups"
  ∧ Dashboard.mapWebhookCategory "followup" = "follow-ups"
  ∧ Dashboard.mapWebhookCategory "follow-up" = "follow-ups"
  ∧ (∀ c, (∀ label result, (label, result) ∈ Dashboard.categoryTable →
             JS.trim (JS.toLowerCase c) ≠ label) →
          Dashboard.mapWebhookCategory c = "enquiries").
Proof.
  intros HL HM (HS & Hphone & Hname) l m.
  split_casing HL. split_casing HM. split_casing HS.
  assert (Hfields :
    category l = category m ∧ sender l = sender m ∧ message l = message m
    ∧ phone_number l = phone_number m ∧ name l = name m
    ∧ product l = product m ∧ intent l = intent m
    ∧ direction l = direction m ∧ type l = type m).
  { subst l m. unfold normalizeFirebaseDoc. simpl.
    repeat match goal with
           | E : texts legacy !! _ = None |- _ => rewrite E; clear E
           | E : texts modern !! _ = None |- _ => rewrite E; clear E
           | E : texts legacy !! _ = texts modern !! _ |- _ => rewrite E; clear E
           end.
    rewrite !JSFacts.orDefault_or. simpl. done. }
  destruct Hfields as (Hc & Hs & Hm & Hp & Hn & Hpr & Hi & Hd & Ht).
  split_and!; try done.
  { by f_equal. }
  { apply mapWebhookCategory_lower. }
  { apply mapWebhookCategory_trim. }
  intros c Hno. unfold Dashboard.mapWebhookCategory.
  assert (E : JS.toLowerCase (JS.orDefault (Some c) EmptyString) = JS.toLowerCase c).
  { simpl. destruct (JS.truthy c) eqn:T; [done |].
    unfold JS.truthy in T. apply negb_false_iff, String.eqb_eq in T. by subst. }
  rewrite E. by rewrite (switch_None _ _ Hno).
Qed.

Lemma normalization_casing_invariant_witness :
  category (normalizeFirebaseDoc (λ _, 0%Z) 0 0 exampleLegacyDoc)
  = category (normalizeFirebaseDoc (λ _, 0%Z) 0 1 exampleModernDoc).
Proof.
  apply (normalization_casing_invariant (λ _, 0%Z) 0 0 1
           exampleLegacyDoc exampleModernDoc).
  - unfold legacyOnly, casingPairs. repeat (constructor; [vm_compute; reflexivity |]).
    constructor.
  - unfold modernOnly, casingPairs. repeat (constructor; [vm_compute; reflexivity |]).
    constructor.
  - split; [| split; vm_compute; reflexivity].
    unfold casingPairs. repeat (constructor; [vm_compute; reflexivity |]).
    constructor.
Defined.

End FeedFacts.

Module ServiceFacts.
Import Chat Service.

Lemma append_inv_head (p a b : string) : p +:+ a = p +:+ b → a = b.
Proof.
  induction p as [| c p IH]; simpl; [done |].
  intros E. injection E as E. by apply IH.
Qed.

Lemma messagesCacheKey_limits_differ conversationId :
  messagesCacheKey conversationId DEFAULT_MESSAGE_LIMIT
  ≠ messagesCacheKey conversationId HOOK_MESSAGE_LIMIT.
Proof.
  unfold messagesCacheKey. intros E.
  apply append_inv_head, append_inv_head in E. vm_compute in E. discriminate E.
Qed.

(** What a committed [sendMessage] does to the local state. *)
Lemma sendMessage_committed newId serverTime conversationId senderId senderType
    content messageType remote st :
  let r := sendMessage newId serverTime Committed conversationId senderId
             senderType content messageType remote st in
  usageStats (snd r) = Usage.incrementWrites 2 (usageStats st)
  ∧ cache (snd r)
    = delete (messagesCacheKey conversationId DEFAULT_MESSAGE_LIMIT) (cache st)
  ∧ registry (snd r) = registry st
  ∧ Service.delivered (snd r) = Service.delivered st
  ∧ messagesCollection (snd (fst r)) !! newId
    = Some (mkMessage newId conversationId senderId senderType content
                      messageType serverTime sent [] []).
Proof.
  simpl. split_and!; try done. by rewrite lookup_insert_eq.
Qed.

(** C6, checked on the code.  A committed [sendMessage] for conversation [c]
    adds exactly 2 to the writes counter and deletes the one cache key built
    with [DEFAULT_MESSAGE_LIMIT] (50).  The entry the hook's own subscription
    writes, built with its limit of 100, is left in place: in the run
    [Scenario.afterSend] it is still served, without the message just sent,
    to the next subscriber. *)
Theorem sendMessage_misses_hook_cache_entry newId serverTime conversationId
    senderId senderType content messageType remote st :
  let r := sendMessage newId serverTime Committed conversationId senderId
             senderType content messageType remote st in
  Usage.writes (usageStats (snd r)) = (Usage.writes (usageStats st) + 2)%Z
  ∧ cache (snd r) !! messagesCacheKey conversationId DEFAULT_MESSAGE_LIMIT = None
  ∧ cache (snd r) !! messagesCacheKey conversationId HOOK_MESSAGE_LIMIT
    = cache st !! messagesCacheKey conversationId HOOK_MESSAGE_LIMIT
  ∧ Cache.data <$> cache (snd Scenario.afterSend) !! "messages_c1_100"
    = Some (CachedMessages [Scenario.olderMessage])
  ∧ Service.delivered
      (snd (subscribeToMessages "c1" 2 HOOK_MESSAGE_LIMIT
              (elapse 5000 (snd Scenario.afterSend))))
    = [ (1, CachedMessages [Scenario.olderMessage]);
        (2, CachedMessages [Scenario.olderMessage]) ].
Proof.
  intros r.
  destruct (sendMessage_committed newId serverTime conversationId senderId
              senderType content messageType remote st) as (Hu & Hc & _).
  fold r in Hu, Hc. rewrite Hu, Hc. split_and!.
  - done.
  - apply lookup_delete_eq.
  - apply lookup_delete_ne, messagesCacheKey_limits_differ.
  - vm_compute. reflexivity.
  - vm_compute. reflexivity.
Qed.

Lemma truthy_false_iff s : JS.truthy s = false ↔ s = EmptyString.
Proof.
  unfold JS.truthy. rewrite negb_false_iff. apply String.eqb_eq.
Qed.

(** Content made of white space only, ASCII or not, is blank: the hook
    returns without a write. *)
Lemma hookSendMessage_blank_content :
  hookSendMessage "m9" 2000 Committed "c1"
    (" " +:+ JS.noBreakSpace +:+ JS.emSpace)
    Scenario.operatorHook Scenario.oneConversation Scenario.overLimit
  = (Returned, Scenario.operatorHook, Scenario.oneConversation, Scenario.overLimit).
Proof. by vm_compute. Qed.

(** C4 (as amended).  The hook's [sendMessage] returns at once, touching
    nothing, when nobody is signed in or the trimmed content is empty.
    Otherwise it performs the write without consulting [checkRateLimit]:
    whatever the reads counter is, also when [checkRateLimit] answers
    [false], a committed batch stores the message with the trimmed content,
    updates the conversation (unread count back to 0 for the operator), and
    the hook's error text stays as it was. *)
Theorem hookSendMessage_ignores_breaker (newId : string) (serverTime : Z)
    (conversationId content uid : string) (hook : Hook) (remote : Remote)
    (st : State) :
  currentUser hook = Some uid →
  let r := hookSendMessage newId serverTime Committed conversationId content
             hook remote st in
  (JS.trim content = EmptyString → r = (Returned, hook, remote, st))
  ∧ (JS.trim content ≠ EmptyString →
       r.1.1.1 = Sent
       ∧ messagesCollection r.1.2 !! newId
         = Some (mkMessage newId conversationId uid operator (JS.trim content)
                           text serverTime sent [] [])
       ∧ conversationsCollection r.1.2 !! conversationId
         = (λ _, mkConversation serverTime serverTime 0)
             <$> conversationsCollection remote !! conversationId
       ∧ error r.1.1.2 = error hook)
  ∧ (Usage.allowed (Usage.checkRateLimit (clock st) (usageStats st)) = false →
     JS.trim content ≠ EmptyString → r.1.1.1 = Sent)
  ∧ (∀ commit content',
       hookSendMessage newId serverTime commit conversationId content'
         (mkHook None (error hook) (shownUsage hook)) remote st
       = (Returned, mkHook None (error hook) (shownUsage hook), remote, st)).
Proof.
  intros Huser r.
  assert (Hempty : JS.trim content = EmptyString → r = (Returned, hook, remote, st)).
  { intros E. subst r. unfold hookSendMessage. rewrite Huser.
    apply truthy_false_iff in E. by rewrite E. }
  assert (Hsent : JS.trim content ≠ EmptyString →
       r.1.1.1 = Sent
       ∧ messagesCollection r.1.2 !! newId
         = Some (mkMessage newId conversationId uid operator (JS.trim content)
                           text serverTime sent [] [])
       ∧ conversationsCollection r.1.2 !! conversationId
         = (λ _, mkConversation serverTime serverTime 0)
             <$> conversationsCollection remote !! conversationId
       ∧ error r.1.1.2 = error hook).
  { intros Hne. subst r. unfold hookSendMessage. rewrite Huser.
    destruct (JS.truthy (JS.trim content)) eqn:T.
    2:{ by apply truthy_false_iff in T. }
    simpl. split_and!; try done.
    - by rewrite lookup_insert_eq.
    - by rewrite lookup_alter_eq. }
  split; [done |]. split; [done |]. split.
  - intros _ Hne. by apply Hsent.
  - done.
Qed.

Lemma hookSendMessage_ignores_breaker_witness :
  (hookSendMessage "m9" 2000 Committed "c1" " hello "
     Scenario.operatorHook Scenario.oneConversation Scenario.overLimit).1.1.1
  = Sent.
Proof.
  destruct (hookSendMessage_ignores_breaker "m9" 2000 "c1" " hello " "op"
              Scenario.operatorHook Scenario.oneConversation Scenario.overLimit)
    as (_ & H & _).
  - reflexivity.
  - apply H. vm_compute. discriminate.
Defined.

(** C4 as stated fails: with 501 reads counted, [checkRateLimit] answers
    [false], yet the hook's [sendMessage] appends the message, updates the
    conversation and reports no "temporarily disabled" text. *)
Lemma hookSendMessage_breaker_counterexample :
  let r := hookSendMessage "m9" 2000 Committed "c1" " hello "
             Scenario.operatorHook Scenario.oneConversation Scenario.overLimit in
  Usage.allowed (Usage.checkRateLimit (clock Scenario.overLimit)
                   (usageStats Scenario.overLimit)) = false
  ∧ r.1.1.1 = Sent
  ∧ content <$> messagesCollection r.1.2 !! "m9" = Some "hello"
  ∧ conversationsCollection r.1.2 !! "c1" = Some (mkConversation 2000 2000 0)
  ∧ conversationsCollection Scenario.oneConversation !! "c1"
    = Some (mkConversation 900 900 3)
  ∧ error r.1.1.2 = None
  ∧ error r.1.1.2 ≠ Some rateLimitNotice.
Proof. vm_compute. split_and!; done. Qed.

(** *** Presence *)

Lemma presenceMapOf_keys now docs k :
  is_Some (presenceMapOf now docs !! k) → ∃ d, d ∈ docs ∧ docUserId d = k.
Proof.
  unfold presenceMapOf.
  assert (G : ∀ acc : gmap string UserPresence,
    is_Some (foldl (λ presenceMap d,
                <[ docUserId d :=
                     mkPresence (docUserId d) (docStatus d)
                                (default now (docLastSeen d))
                                (default false (docIsTyping d))
                                (docTypingInConversation d) ]> presenceMap)
              acc docs !! k) →
    is_Some (acc !! k) ∨ ∃ d, d ∈ docs ∧ docUserId d = k).
  { induction docs as [| d docs IH]; simpl; intros acc H; [by left |].
    destruct (IH _ H) as [Hacc | (d' & Hin & Hk)].
    - destruct (decide (docUserId d = k)) as [E | E].
      + right. exists d. split; [left | done].
      + rewrite lookup_insert_ne in Hacc by done. by left.
    - right. exists d'. split; [by right | done]. }
  intros H. destruct (G ∅ H) as [Hempty | Hd]; [| done].
  rewrite lookup_empty in Hempty. by destruct Hempty.
Qed.

Lemma replayCached_registry cacheKey callback st :
  registry (replayCached cacheKey callback st) = registry st.
Proof.
  unfold replayCached.
  by destruct (Cache.getCachedData (clock st) cacheKey (cache st)) as [[payload |] cache'].
Qed.

Lemma clock_elapse (t : Z) (st : State) : clock (elapse t st) = Z.max (clock st) t.
Proof.
  unfold clock, elapse, Coalescer.advance. simpl.
  by rewrite CoalescerFacts.fireMany_now.
Qed.


End ServiceFacts.

(* ===================================================================== *)
(** * Part III: further properties of the modelled code *)
(* ===================================================================== *)

Module CacheMore.
Import Cache.

(** A read hands back only what is stored and not expired, and then leaves
    the cache as it is; after a miss the key is absent; a read never touches
    another key; a missing key is a plain miss. *)
Theorem getCachedData_sound {T} (now : Z) (key key' : string)
    (cache : gmap string (CachedData T)) :
  let r := getCachedData now key cache in
  (∀ v, fst r = Some v →
        ∃ entry, cache !! key = Some entry ∧ data entry = v
                 ∧ (now <= expiresAt entry)%Z ∧ snd r = cache)
  ∧ (fst r = None → snd r !! key = None)
  ∧ (key' ≠ key → snd r !! key' = cache !! key')
  ∧ (cache !! key = None → r = (None, cache)).
Proof.
  unfold getCachedData.
  destruct (cache !! key) as [entry |] eqn:E.
  - destruct (Z.ltb_spec (expiresAt entry) now) as [Hlt | Hge]; simpl.
    + split; [done |]. split; [intros _; apply lookup_delete_eq |].
      split; [| done]. intros Hne. by apply lookup_delete_ne.
    + split; [| done]. intros v Hv. injection Hv as <-. by exists entry.
  - simpl. split; [done |]. split; done.
Qed.

(** Writing a key twice keeps the second value with the second lifetime, and
    a write leaves what a read of any other key returns unchanged. *)
Theorem setCachedData_overwrites {T} (key key' : string) (v1 v2 : T)
    (t1 t2 s1 s2 now : Z) (cache : gmap string (CachedData T)) :
  setCachedData s2 key v2 t2 (setCachedData s1 key v1 t1 cache)
  = setCachedData s2 key v2 t2 cache
  ∧ ((now <= s2 + t2)%Z →
       fst (getCachedData now key
              (setCachedData s2 key v2 t2 (setCachedData s1 key v1 t1 cache)))
       = Some v2)
  ∧ (key' ≠ key →
       fst (getCachedData now key' (setCachedData s1 key v1 t1 cache))
       = fst (getCachedData now key' cache)).
Proof.
  split_and!.
  - unfold setCachedData. apply insert_insert_eq.
  - intros Hle. by rewrite CacheFacts.get_after_set_live.
  - intros Hne. unfold getCachedData, setCachedData.
    rewrite lookup_insert_ne by done.
    destruct (cache !! key') as [entry |]; [| done].
    by destruct (expiresAt entry <? now)%Z.
Qed.

End CacheMore.

Module UsageMore.
Import Usage.

(** Inside one window the breaker, once open, stays open: more reads (counts
    are never negative) at a later instant of the same window still give
    [false].  Writes never change the answer. *)
Theorem checkRateLimit_stays_open (now now' n : Z) (st : FirebaseUsageStats) :
  (now - lastReset st < 86400000)%Z → (now' - lastReset st < 86400000)%Z →
  (0 <= n)%Z →
  allowed (checkRateLimit now st) = false →
  allowed (checkRateLimit now' (incrementReads n st)) = false
  ∧ (∀ w, allowed (checkRateLimit now (incrementWrites w st)) = false).
Proof.
  intros Hwin Hwin' Hn Hopen.
  rewrite UsageFacts.checkRateLimit_unfold in Hopen.
  rewrite UsageFacts.getUsageStats_in_window in Hopen by done. simpl in Hopen.
  assert (Hover : (500 < reads st)%Z).
  { destruct (Z.ltb_spec 500 (reads st)); [done |].
    by destruct (reads st <=? 400)%Z. }
  split.
  - rewrite UsageFacts.checkRateLimit_unfold.
    rewrite UsageFacts.getUsageStats_in_window by done. simpl.
    destruct (Z.ltb_spec 500 (reads st + n)); [done | lia].
  - intros w. rewrite UsageFacts.checkRateLimit_unfold.
    rewrite UsageFacts.getUsageStats_in_window by done. simpl.
    destruct (Z.ltb_spec 500 (reads st)); [done | lia].
Qed.

Lemma checkRateLimit_stays_open_witness :
  allowed (checkRateLimit 5000 (incrementReads 3 (mkUsage 501 0 0))) = false.
Proof.
  apply (checkRateLimit_stays_open 1000 5000 3 (mkUsage 501 0 0));
    first [reflexivity | simpl; lia].
Defined.

(** Once 24 hours have passed since the last reset, the breaker closes again
    whatever the counters were: the call resets the meter, answers [true] and
    does not warn. *)
Theorem checkRateLimit_reopens (now : Z) (st : FirebaseUsageStats) :
  (86400000 <= now - lastReset st)%Z →
  checkRateLimit now st = mkRateCheck true None (mkUsage 0 0 now).
Proof.
  intros Hold. rewrite UsageFacts.checkRateLimit_unfold.
  rewrite UsageFacts.getUsageStats_after_window by done. reflexivity.
Qed.

Lemma checkRateLimit_reopens_witness :
  checkRateLimit 86400000 (mkUsage 99999 7 0)
  = mkRateCheck true None (mkUsage 0 0 86400000).
Proof.
  apply (checkRateLimit_reopens 86400000 (mkUsage 99999 7 0)). simpl. lia.
Defined.

Lemma increments_sum (rs ws : list Z) (st : FirebaseUsageStats) :
  foldl (λ m w, incrementWrites w m) (foldl (λ m r, incrementReads r m) st rs) ws
  = mkUsage (reads st + foldr Z.add 0 rs)%Z (writes st + foldr Z.add 0 ws)%Z
            (lastReset st).
Proof.
  revert st. induction rs as [| r rs IH]; intros st; simpl.
  - revert st. induction ws as [| w ws IHw]; intros st; simpl.
    + destruct st; simpl. f_equal; lia.
    + rewrite IHw. simpl. f_equal; lia.
  - rewrite IH. simpl. f_equal; lia.
Qed.

(** After the lazy reset the meter counts from zero: a snapshot taken before
    another 24 hours have passed reports exactly the sum of the reads and the
    sum of the writes recorded since, with [lastReset] at the reset instant. *)
Theorem usage_counts_since_reset (now now' : Z) (rs ws : list Z)
    (st : FirebaseUsageStats) :
  (86400000 <= now - lastReset st)%Z → (now' - now < 86400000)%Z →
  let afterReset := snd (getUsageStats now st) in
  let meter := foldl (λ m w, incrementWrites w m)
                 (foldl (λ m r, incrementReads r m) afterReset rs) ws in
  fst (getUsageStats now' meter)
  = mkUsage (foldr Z.add 0%Z rs) (foldr Z.add 0%Z ws) now.
Proof.
  intros Hold Hwin afterReset meter. subst afterReset meter.
  rewrite (UsageFacts.getUsageStats_after_window now st) by done. simpl snd.
  rewrite increments_sum.
  rewrite UsageFacts.getUsageStats_in_window by (simpl; lia). done.
Qed.

Lemma usage_counts_since_reset_witness :
  fst (getUsageStats 86400500
         (incrementWrites 2
            (incrementReads 7 (incrementReads 5
               (snd (getUsageStats 86400000 (mkUsage 400 9 0)))))))
  = mkUsage 12 2 86400000.
Proof.
  apply (usage_counts_since_reset 86400000 86400500 [5; 7]%Z [2]%Z
           (mkUsage 400 9 0)); simpl; lia.
Defined.

End UsageMore.

Module CoalescerMore.
Import Coalescer CoalescerMaps CoalescerFacts.

Section WithFactory.
Context {F : Type}.
Implicit Types (st : state F) (t : timer F) (l : listener F) (k key : string).

Lemma wfMaps_init (start : Z) : wfMaps (init (F := F) start).
Proof.
  constructor; simpl; intros *; rewrite lookup_empty; done.
Qed.

(** A stored handle names timeouts of its own key only. *)
Lemma handle_names_key st key h t :
  wf st → wfMaps st → debounceTimers st !! key = Some h →
  t ∈ runtimeTimers st → tid t = h → tkey t = key.
Proof.
  intros Hwf Hm Hentry Ht Hid.
  destruct (entry_is_pending _ Hm key h Hentry) as (t0 & Ht0 & Hid0 & Hk0).
  rewrite <- Hk0. f_equal.
  apply (same_id_same_timer st); [done.. | congruence].
Qed.

Lemma clearExistingTimer_other key k st :
  wf st → wfMaps st → k ≠ key →
  timersFor k (clearExistingTimer key st) = timersFor k st.
Proof.
  intros Hwf Hm Hne. unfold clearExistingTimer, timersFor.
  destruct (debounceTimers st !! key) as [h |] eqn:E; [| done]. simpl.
  apply filter_filter_implied. intros t Ht Hk Hid.
  apply Hne. rewrite <- Hk. by apply (handle_names_key st key h t).
Qed.

Lemma clearExistingListener_other key k st :
  wfMaps st → k ≠ key →
  listenersFor k (clearExistingListener key st) = listenersFor k st.
Proof.
  intros Hm Hne. unfold clearExistingListener, listenersFor.
  destruct (activeListeners st !! key) as [u |] eqn:E; [| done]. simpl.
  apply filter_filter_implied. intros l Hl Hk Hid.
  apply Hne. rewrite <- Hk. by apply (entry_names_key _ Hm key u l).
Qed.

Lemma pending_survives_clear key k h st :
  wf st → wfMaps st → k ≠ key → debounceTimers st !! k = Some h →
  ∃ t, t ∈ runtimeTimers (clearExistingTimer key st) ∧ tid t = h ∧ tkey t = k.
Proof.
  intros Hwf Hm Hne Hentry.
  destruct (entry_is_pending _ Hm k h Hentry) as (t & Ht & Hid & Hk).
  exists t. split; [| done].
  assert (Hin : t ∈ timersFor k st) by by apply list_elem_of_filter.
  rewrite <- (clearExistingTimer_other key k st) in Hin by done.
  by apply list_elem_of_filter in Hin as [_ Hin].
Qed.

Lemma clear_steps_fields key st :
  let st2 := clearExistingListener key (clearExistingTimer key st) in
  now st2 = now st ∧ nextTimer st2 = nextTimer st
  ∧ nextListener st2 = nextListener st
  ∧ debounceTimers st2 = debounceTimers st
  ∧ activeListeners st2 = activeListeners st
  ∧ invocations st2 = invocations st
  ∧ runtimeTimers st2 = runtimeTimers (clearExistingTimer key st)
  ∧ (∀ l, l ∈ openListeners st2 → l ∈ openListeners st).
Proof.
  unfold clearExistingListener, clearExistingTimer.
  destruct (debounceTimers st !! key); simpl;
    destruct (activeListeners st !! key); simpl; split_and!; try done;
    intros l Hl; by apply list_elem_of_filter in Hl as [_ Hl].
Qed.

Lemma wfMaps_setup key fn delay st :
  wf st → wfMaps st → wfMaps (setupDebouncedListener key fn delay st).
Proof.
  intros Hwf Hm. rewrite setup_unfold.
  destruct (clear_steps_fields key st) as (_ & Ht & Hl & Hd & Ha & _ & Hr & Ho).
  cbv zeta. constructor; simpl.
  - intros k h. rewrite Hd, Ht, Hr.
    destruct (decide (key = k)) as [<- | Hne].
    + rewrite lookup_insert_eq. intros [= <-].
      eexists. split; [apply elem_of_app; right; left |]. done.
    + rewrite lookup_insert_ne by done. intros Hentry.
      destruct (pending_survives_clear key k h st) as (t & Hin & Hid & Hk);
        [done.. | |]; [congruence |].
      exists t. split; [apply elem_of_app; by left | done].
  - intros k u. rewrite Ha, Hl. apply (entry_is_old _ Hm).
  - intros k u l. rewrite Ha. intros Hentry Hin.
    apply (entry_names_key _ Hm k u l Hentry). by apply Ho.
Qed.

Lemma wfMaps_runCallback t st :
  wf st → wfMaps st → t ∈ runtimeTimers st → wfMaps (runCallback t st).
Proof.
  intros Hwf Hm Hin. constructor; simpl.
  - intros k h Hentry.
    destruct (decide (tkey t = k)) as [<- | Hne].
    { by rewrite lookup_delete_eq in Hentry. }
    rewrite lookup_delete_ne in Hentry by done.
    destruct (entry_is_pending _ Hm k h Hentry) as (t' & Ht' & Hid & Hk).
    exists t'. split; [| done]. apply list_elem_of_filter. split; [| done].
    intros E. apply Hne. rewrite <- Hk. f_equal. symmetry.
    by apply (same_id_same_timer st).
  - intros k u. destruct (decide (tkey t = k)) as [<- | Hne].
    + rewrite lookup_insert_eq. intros [= <-]. lia.
    + rewrite lookup_insert_ne by done. intros Hentry.
      apply (entry_is_old _ Hm) in Hentry. lia.
  - intros k u l Hentry Hl Hid.
    apply elem_of_app in Hl as [Hl | ->%list_elem_of_singleton].
    + destruct (decide (tkey t = k)) as [<- | Hne].
      * rewrite lookup_insert_eq in Hentry. injection Hentry as <-.
        apply (wf_listener_fresh _ Hwf) in Hl. lia.
      * rewrite lookup_insert_ne in Hentry by done.
        by apply (entry_names_key _ Hm k u l).
    + simpl in *. destruct (decide (tkey t = k)) as [<- | Hne]; [done |].
      rewrite lookup_insert_ne in Hentry by done.
      apply (entry_is_old _ Hm) in Hentry. lia.
Qed.

Lemma wfMaps_fireNext st : wf st → wfMaps st → wfMaps (fireNext st).
Proof.
  intros Hwf Hm. unfold fireNext.
  destruct (nextDue (now st) (runtimeTimers st)) as [t |] eqn:E; [| done].
  apply nextDue_Some in E as [Hin _]. by apply wfMaps_runCallback.
Qed.

Lemma wfMaps_tick now' st : wfMaps st → wfMaps (tick now' st).
Proof. by intros [H1 H2 H3]. Qed.

Lemma wfMaps_unsubscribeKey key st :
  wf st → wfMaps st → wfMaps (unsubscribeKey key st).
Proof.
  intros Hwf Hm. unfold unsubscribeKey.
  set (st1 := match debounceTimers st !! key with
              | Some timer => _ | None => st end).
  assert (Hm1 : wfMaps st1 ∧ activeListeners st1 = activeListeners st
                ∧ nextListener st1 = nextListener st
                ∧ openListeners st1 = openListeners st).
  { subst st1. destruct (debounceTimers st !! key) as [h |] eqn:E; [| done].
    split; [| done]. constructor; simpl.
    - intros k h' Hentry.
      destruct (decide (key = k)) as [<- | Hne].
      { by rewrite lookup_delete_eq in Hentry. }
      rewrite lookup_delete_ne in Hentry by done.
      destruct (pending_survives_clear key k h' st) as (t & Hin & Hid & Hk);
        [done.. | congruence | done |].
      unfold clearExistingTimer in Hin. rewrite E in Hin. by exists t.
    - apply (entry_is_old _ Hm).
    - apply (entry_names_key _ Hm). }
  destruct Hm1 as (Hm1 & Ha & Hn & Ho).
  destruct (activeListeners st1 !! key) as [u |] eqn:E; [| done].
  constructor; simpl.
  - apply (entry_is_pending _ Hm1).
  - intros k u' Hentry. destruct (decide (key = k)) as [<- | Hne].
    { by rewrite lookup_delete_eq in Hentry. }
    rewrite lookup_delete_ne in Hentry by done.
    by apply (entry_is_old _ Hm1) in Hentry.
  - intros k u' l Hentry Hl Hid.
    destruct (decide (key = k)) as [<- | Hne].
    { by rewrite lookup_delete_eq in Hentry. }
    rewrite lookup_delete_ne in Hentry by done.
    apply list_elem_of_filter in Hl as [_ Hl].
    by apply (entry_names_key _ Hm1 k u' l).
Qed.

Lemma cleanup_maps st :
  debounceTimers (cleanup st) = ∅ ∧ activeListeners (cleanup st) = ∅
  ∧ invocations (cleanup st) = invocations st
  ∧ now (cleanup st) = now st.
Proof.
  unfold cleanup. simpl.
  set (st1 := map_fold (λ _ timer acc, clearTimeout timer acc) st (debounceTimers st)).
  destruct (clearAll_listeners (setDebounceTimers ∅ st1) (activeListeners st1))
    as (_ & _ & _ & Hd & _).
  split; [exact Hd |]. split; [done |].
  assert (H1 : invocations st1 = invocations st ∧ now st1 = now st).
  { subst st1.
    apply (map_fold_weak_ind (λ acc _,
             invocations acc = invocations st ∧ now acc = now st)); [done |].
    by intros i h m acc _ IH. }
  apply (map_fold_weak_ind (λ acc _,
           invocations acc = invocations st ∧ now acc = now st)); [done |].
  by intros i h m acc _ IH.
Qed.

Lemma wfMaps_cleanup st : wfMaps (cleanup st).
Proof.
  destruct (cleanup_maps st) as (Hd & Ha & _).
  constructor; intros *; rewrite ?Hd, ?Ha, lookup_empty; done.
Qed.

Lemma reachable_wfMaps st : reachable st → wfMaps st.
Proof.
  induction 1 as [start | st st' Hr IH Hstep]; [apply wfMaps_init |].
  pose proof (reachable_wf st Hr) as Hwf.
  destruct Hstep.
  - by apply wfMaps_setup.
  - by apply wfMaps_unsubscribeKey.
  - apply wfMaps_cleanup.
  - by apply wfMaps_tick.
  - by apply wfMaps_fireNext.
Qed.

Lemma unsubscribeKey_fields key st :
  let st' := unsubscribeKey key st in
  runtimeTimers st' = runtimeTimers (clearExistingTimer key st)
  ∧ openListeners st' = openListeners (clearExistingListener key st)
  ∧ debounceTimers st' = delete key (debounceTimers st)
  ∧ activeListeners st' = delete key (activeListeners st)
  ∧ invocations st' = invocations st ∧ now st' = now st.
Proof.
  unfold unsubscribeKey, clearExistingTimer, clearExistingListener.
  destruct (debounceTimers st !! key) as [h |] eqn:Ed; simpl;
    destruct (activeListeners st !! key) as [u |] eqn:Ea; simpl;
    rewrite ?(delete_id _ _ Ed), ?(delete_id _ _ Ea); done.
Qed.

Lemma clearExistingListener_frame key k st :
  (∀ u l, activeListeners st !! key = Some u → l ∈ openListeners st →
          lid l = u → lkey l = key) →
  k ≠ key →
  filter (λ l, lkey l = k) (openListeners (clearExistingListener key st))
  = filter (λ l, lkey l = k) (openListeners st).
Proof.
  intros Hnames Hne. unfold clearExistingListener.
  destruct (activeListeners st !! key) as [u |] eqn:E; [| done]. simpl.
  apply filter_filter_implied. intros l Hl Hk Hid.
  apply Hne. rewrite <- Hk. by apply (Hnames u l).
Qed.

Lemma view_ext k st st' :
  timersFor k st' = timersFor k st → listenersFor k st' = listenersFor k st →
  invocationsFor k st' = invocationsFor k st →
  debounceTimers st' !! k = debounceTimers st !! k →
  activeListeners st' !! k = activeListeners st !! k →
  view k st' = view k st.
Proof. intros. unfold view. congruence. Qed.

(** [setupDebouncedListener] for one key leaves every other key alone: its
    pending timeout, its open subscription, its two map entries and the
    factory calls made for it are the same before and after. *)
Theorem setupDebouncedListener_frame (st : state F) (key k : string) (fn : F)
    (delay : Z) :
  reachable st → k ≠ key →
  view k (setupDebouncedListener key fn delay st) = view k st.
Proof.
  intros Hr Hne.
  pose proof (reachable_wf st Hr) as Hwf.
  pose proof (reachable_wfMaps st Hr) as Hm.
  rewrite setup_unfold. cbv zeta.
  destruct (clear_steps_fields key st) as (_ & _ & _ & Hd & Ha & Hi & Hr' & _).
  apply view_ext; unfold timersFor, listenersFor, invocationsFor; simpl;
    rewrite ?Hd, ?Ha, ?Hi, ?Hr'; try done.
  - rewrite filter_app, filter_cons_False, filter_nil, app_nil_r by (simpl; congruence).
    by apply clearExistingTimer_other.
  - rewrite clearExistingListener_frame; [| | done].
    + unfold clearExistingTimer. by destruct (debounceTimers st !! key).
    + intros u l Hentry Hl Hid. apply (entry_names_key _ Hm key u l); [| | done].
      * unfold clearExistingTimer in Hentry.
        by destruct (debounceTimers st !! key).
      * unfold clearExistingTimer in Hl.
        by destruct (debounceTimers st !! key).
  - by rewrite lookup_insert_ne.
Qed.

Lemma unsubscribeKey_none (key : string) (st : state F) :
  wf st →
  timersFor key (unsubscribeKey key st) = []
  ∧ listenersFor key (unsubscribeKey key st) = []
  ∧ invocations (unsubscribeKey key st) = invocations st.
Proof.
  intros Hwf.
  destruct (unsubscribeKey_fields key st) as (Ht & Hl & _ & _ & Hi & _).
  split; [| split; [| done]].
  - unfold timersFor. rewrite Ht. apply filter_none.
    intros t Hin. by apply (clearExistingTimer_none key st Hwf).
  - unfold listenersFor. rewrite Hl. apply filter_none.
    intros l Hin. by apply (clearExistingListener_none key st Hwf).
Qed.

(** The clean-up closure returned by the subscribe functions: after it has
    run, nothing is pending and nothing is open for its key, both maps have
    dropped the key, no factory was called, and every other key is as it
    was.  Running it again changes nothing. *)
Theorem unsubscribeKey_clears (st : state F) (key k : string) :
  reachable st →
  let st' := unsubscribeKey key st in
  timersFor key st' = [] ∧ listenersFor key st' = []
  ∧ debounceTimers st' !! key = None ∧ activeListeners st' !! key = None
  ∧ invocations st' = invocations st
  ∧ (k ≠ key → view k st' = view k st)
  ∧ unsubscribeKey key st' = st'.
Proof.
  intros Hr st'.
  pose proof (reachable_wf st Hr) as Hwf.
  pose proof (reachable_wfMaps st Hr) as Hm.
  destruct (unsubscribeKey_fields key st) as (Ht & Hl & Hd & Ha & Hi & Hn).
  fold st' in Ht, Hl, Hd, Ha, Hi, Hn.
  destruct (unsubscribeKey_none key st Hwf) as (Htimers & Hlisteners & _).
  fold st' in Htimers, Hlisteners.
  split; [done |]. split; [done |].
  split; [rewrite Hd; apply lookup_delete_eq |].
  split; [rewrite Ha; apply lookup_delete_eq |].
  split; [done |]. split.
  - intros Hne. apply view_ext; unfold timersFor, listenersFor, invocationsFor;
      rewrite ?Ht, ?Hl, ?Hd, ?Ha, ?Hi; try done.
    + by apply clearExistingTimer_other.
    + apply clearExistingListener_frame; [| done]. apply (entry_names_key _ Hm).
    + by apply lookup_delete_ne.
    + by apply lookup_delete_ne.
  - unfold unsubscribeKey at 1.
    assert (Ed : debounceTimers st' !! key = None)
      by (rewrite Hd; apply lookup_delete_eq).
    assert (Ea : activeListeners st' !! key = None)
      by (rewrite Ha; apply lookup_delete_eq).
    by rewrite Ed, Ea.
Qed.


Lemma advance_quiet k (deadline : Z) st :
  wf st → timersFor k st = [] → view k (advance deadline st) = view k st.
Proof.
  intros Hwf Hnone. unfold advance.
  rewrite fireMany_quiet; [done | by apply wf_tick |].
  intros t Ht. change (timersFor k (tick deadline st)) with (timersFor k st) in Ht.
  rewrite Hnone in Ht. by apply elem_of_nil in Ht.
Qed.

(** Cancelling before the delay has elapsed: the factory handed to
    [setupDebouncedListener] is never called, however much time passes
    afterwards, and nothing is left pending or open for the key. *)
Theorem cancel_before_settle (st : state F) (key : string) (fn : F)
    (delay dt deadline : Z) :
  reachable st → (0 <= dt < delay)%Z →
  let st1 := advance (now st + dt) (setupDebouncedListener key fn delay st) in
  let st2 := advance deadline (unsubscribeKey key st1) in
  invocationsFor key st2 = invocationsFor key st
  ∧ listenersFor key st2 = [] ∧ timersFor key st2 = [].
Proof.
  intros Hr Hdt st1 st2.
  pose proof (reachable_wf st Hr) as Hwf.
  destruct (setup_view key fn delay st Hwf) as (T1 & L1 & I1 & N1).
  set (st0 := setupDebouncedListener key fn delay st) in *.
  assert (Hwf0 : wf st0) by by apply wf_setup.
  assert (Hq : view key st1 = view key st0).
  { unfold st1, advance.
    rewrite fireMany_quiet; [done | by apply wf_tick |].
    intros t Ht. change (timersFor key (tick (now st + dt) st0))
      with (timersFor key st0) in Ht.
    rewrite T1 in Ht. apply list_elem_of_singleton in Ht as ->.
    change (Z.max (now st0) (now st + dt) < now st + Z.max 0 delay)%Z.
    rewrite N1. lia. }
  injection Hq as _ _ Hinv _ _.
  assert (Hr1 : reachable st1).
  { apply reachable_advance. eapply reach_step; [done | constructor]. }
  destruct (unsubscribeKey_none key st1 (reachable_wf st1 Hr1)) as (Ct & Cl & Ci).
  assert (Hwf2 : wf (unsubscribeKey key st1)).
  { apply wf_unsubscribeKey. by apply reachable_wf. }
  pose proof (advance_quiet key deadline _ Hwf2 Ct) as Hq2.
  fold st2 in Hq2. injection Hq2 as -> -> -> _ _.
  split; [| done].
  unfold invocationsFor at 1. rewrite Ci. fold (invocationsFor key st1).
  rewrite Hinv. unfold invocationsFor. by rewrite I1.
Qed.


(** One call of [setupDebouncedListener], left alone until its delay has
    passed: the factory is called exactly once, its subscription is the one
    open and registered for the key, no timeout stays pending, and further
    passing of time changes nothing for the key. *)
Theorem single_setup_settles (st : state F) (key : string) (fn : F)
    (delay deadline later : Z) :
  reachable st → (now st + Z.max 0 delay <= deadline)%Z →
  let st' := advance deadline (setupDebouncedListener key fn delay st) in
  invocationsFor key st' = invocationsFor key st ++ [(key, fn)]
  ∧ (∃ l, listenersFor key st' = [l] ∧ lfn l = fn
          ∧ activeListeners st' !! key = Some (lid l))
  ∧ timersFor key st' = []
  ∧ view key (advance later st') = view key st'.
Proof.
  intros Hr Hdeadline st'.
  pose proof (reachable_wf st Hr) as Hwf.
  destruct (setup_view key fn delay st Hwf) as (T1 & L1 & I1 & N1).
  set (st0 := setupDebouncedListener key fn delay st) in *.
  assert (Hwf0 : wf st0) by by apply wf_setup.
  set (t0 := mkTimer (nextTimer st) (now st + Z.max 0 delay) key fn) in *.
  assert (Hin : t0 ∈ runtimeTimers (tick deadline st0)).
  { assert (Ht : t0 ∈ timersFor key st0) by (rewrite T1; left).
    by apply list_elem_of_filter in Ht as [_ Ht]. }
  destruct (fireMany_due key (length (runtimeTimers (tick deadline st0)))
              (tick deadline st0) t0) as (R1 & R2 & R3);
    [by apply wf_tick | done | done | | done |].
  { change (now st + Z.max 0 delay <= Z.max (now st0) deadline)%Z. lia. }
  split.
  { unfold st', advance. rewrite R3.
    change (invocationsFor key (tick deadline st0)) with (invocationsFor key st0).
    unfold invocationsFor. by rewrite I1. }
  split; [done |]. split; [done |].
  apply advance_quiet; [| done]. by apply wf_advance.
Qed.

End WithFactory.

Lemma setupDebouncedListener_frame_witness :
  view "msg_listener_c2"
    (setupDebouncedListener "msg_listener_c1" 7%nat DEBOUNCE_DELAY
       (setupDebouncedListener "msg_listener_c2" 5%nat DEBOUNCE_DELAY (init 0)))
  = view "msg_listener_c2"
      (setupDebouncedListener "msg_listener_c2" 5%nat DEBOUNCE_DELAY (init 0)).
Proof.
  apply (setupDebouncedListener_frame
           (setupDebouncedListener "msg_listener_c2" 5%nat DEBOUNCE_DELAY (init 0))
           "msg_listener_c1" "msg_listener_c2" 7%nat DEBOUNCE_DELAY).
  - eapply reach_step; [apply (reach_init 0) | constructor].
  - discriminate.
Defined.

Lemma unsubscribeKey_clears_witness :
  timersFor "msg_listener_c1"
    (unsubscribeKey "msg_listener_c1"
       (setupDebouncedListener "msg_listener_c1" 7%nat DEBOUNCE_DELAY (init 0)))
  = [].
Proof.
  apply (unsubscribeKey_clears
           (setupDebouncedListener "msg_listener_c1" 7%nat DEBOUNCE_DELAY (init 0))
           "msg_listener_c1" "msg_listener_c1").
  eapply reach_step; [apply (reach_init 0) | constructor].
Defined.

Lemma cancel_before_settle_witness :
  invocationsFor "msg_listener_c1"
    (advance 60000
       (unsubscribeKey "msg_listener_c1"
          (advance 400
             (setupDebouncedListener "msg_listener_c1" 7%nat DEBOUNCE_DELAY
                (init 0)))))
  = [].
Proof.
  apply (cancel_before_settle (init 0) "msg_listener_c1" 7%nat DEBOUNCE_DELAY
           400 60000).
  - constructor.
  - unfold DEBOUNCE_DELAY. lia.
Defined.


Lemma single_setup_settles_witness :
  invocationsFor "msg_listener_c1"
    (advance 1000
       (setupDebouncedListener "msg_listener_c1" 7%nat DEBOUNCE_DELAY (init 0)))
  = [("msg_listener_c1", 7%nat)].
Proof.
  destruct (single_setup_settles (init 0) "msg_listener_c1" 7%nat
              DEBOUNCE_DELAY 1000 2000) as (H & _).
  - constructor.
  - unfold DEBOUNCE_DELAY. simpl. lia.
  - exact H.
Defined.

End CoalescerMore.

Module ServiceMore.
Import Chat Service ServiceRuns.

(** Snapshot, cache, replay.  After the messages listener has handled a
    snapshot, a new [subscribeToMessages] for the same conversation and limit
    made no later than 30 s afterwards hands the same list (oldest first) to
    its callback at once; made later than that, it hands over nothing and the
    expired entry is dropped from the cache. *)
Theorem messages_snapshot_replay (conversationId : string) (limitCount : nat)
    (callback callback' : nat) (docs : list ChatMessage) (t : Z) (st : State) :
  let key := messagesCacheKey conversationId limitCount in
  let st1 := onMessagesSnapshot key callback docs st in
  let st2 := snd (subscribeToMessages conversationId callback' limitCount
                    (elapse t st1)) in
  Service.delivered st1
  = Service.delivered st ++ [(callback, CachedMessages (reverse docs))]
  ∧ ((t <= clock st + CACHE_DURATION)%Z →
       Service.delivered st2
       = Service.delivered st1 ++ [(callback', CachedMessages (reverse docs))])
  ∧ ((clock st + CACHE_DURATION < t)%Z →
       Service.delivered st2 = Service.delivered st1 ∧ cache st2 !! key = None).
Proof.
  intros key st1 st2.
  assert (Hc : cache (elapse t st1)
               = Cache.setCachedData (clock st) key (CachedMessages (reverse docs))
                   CACHE_DURATION (cache st)) by done.
  assert (Hk : clock (elapse t st1) = Z.max (clock st) t) by (by rewrite ServiceFacts.clock_elapse).
  assert (Hd : Service.delivered st2
               = Service.delivered (replayCached key callback' (elapse t st1))) by done.
  assert (Hc2 : cache st2 = cache (replayCached key callback' (elapse t st1))) by done.
  split; [done |]. rewrite Hd, Hc2. unfold replayCached. rewrite Hc, Hk. split.
  - intros Hle.
    rewrite CacheFacts.get_after_set_live by (unfold CACHE_DURATION in *; lia).
    done.
  - intros Hlt.
    rewrite CacheFacts.get_after_set_expired by lia.
    split; [done |]. apply lookup_delete_eq.
Qed.

(** A rejected commit, seen from the hook.  For a signed-in user and content
    that is not blank, the hook stores the error's message (or "Failed to
    send message" when there is none) and rethrows, and neither the store nor
    the service state has changed.  A later send therefore does to the store
    and to the service exactly what it would have done without the failed
    one; only the stored error text stays, also after a send that
    succeeds. *)
Theorem failed_commit_changes_nothing (newId : string) (serverTime : Z)
    (errorMessage : option string) (conversationId content uid : string)
    (hook : Hook) (remote : Remote) (st : State) :
  currentUser hook = Some uid → JS.trim content ≠ EmptyString →
  let failed := hookSendMessage newId serverTime (CommitFailed errorMessage)
                  conversationId content hook remote st in
  let shown := Some (default "Failed to send message" errorMessage) in
  failed = (Threw, mkHook (Some uid) shown (shownUsage hook), remote, st)
  ∧ (∀ newId' serverTime' commit' conversationId' content',
       let retry := hookSendMessage newId' serverTime' commit' conversationId'
                      content' failed.1.1.2 failed.1.2 failed.2 in
       let direct := hookSendMessage newId' serverTime' commit' conversationId'
                       content' hook remote st in
       retry.1.1.1 = direct.1.1.1 ∧ retry.1.2 = direct.1.2 ∧ retry.2 = direct.2
       ∧ (commit' = Committed → error retry.1.1.2 = shown)).
Proof.
  intros Huser Hne failed shown.
  assert (Hfailed : failed = (Threw, mkHook (Some uid) shown (shownUsage hook),
                              remote, st)).
  { unfold failed, hookSendMessage. rewrite Huser.
    destruct (JS.truthy (JS.trim content)) eqn:T; [done |].
    by apply ServiceFacts.truthy_false_iff in T. }
  split; [done |]. rewrite Hfailed. cbn [fst snd].
  intros newId' serverTime' commit' conversationId' content'.
  unfold hookSendMessage. rewrite Huser. cbn [currentUser].
  destruct (JS.truthy (JS.trim content')); cbn [negb]; [| done].
  destruct commit' as [| e]; [| by split_and!; [done | done | done | intros [=]]].
  unfold sendMessage.
  destruct (Usage.getUsageStats _ _) as [stats meter].
  by split_and!.
Qed.

Lemma failed_commit_changes_nothing_witness :
  (hookSendMessage "m9" 2000 (CommitFailed (Some "permission-denied")) "c1"
     "hello" Scenario.operatorHook Scenario.oneConversation Scenario.overLimit).2
  = Scenario.overLimit.
Proof.
  destruct (failed_commit_changes_nothing "m9" 2000 (Some "permission-denied")
              "c1" "hello" "op" Scenario.operatorHook Scenario.oneConversation
              Scenario.overLimit) as [H _].
  - reflexivity.
  - vm_compute. discriminate.
  - by rewrite H.
Defined.

(** A committed [sendMessage] touches, in the store, only the new message
    document and the conversation it belongs to; locally it leaves the
    registry and the callers' callbacks alone and adds nothing to the reads
    counter. *)
Theorem sendMessage_frame (newId : string) (serverTime : Z)
    (conversationId senderId : string) (senderType : SenderType)
    (content : string) (messageType : MessageType) (remote : Remote)
    (st : State) (otherId otherConversation : string) :
  let r := sendMessage newId serverTime Committed conversationId senderId
             senderType content messageType remote st in
  (otherId ≠ newId →
     messagesCollection r.1.2 !! otherId = messagesCollection remote !! otherId)
  ∧ (otherConversation ≠ conversationId →
       conversationsCollection r.1.2 !! otherConversation
       = conversationsCollection remote !! otherConversation)
  ∧ presenceCollection r.1.2 = presenceCollection remote
  ∧ registry r.2 = registry st
  ∧ Service.delivered r.2 = Service.delivered st
  ∧ Usage.reads (usageStats r.2) = Usage.reads (usageStats st).
Proof.
  simpl. split_and!; try done.
  - intros Hne. by rewrite lookup_insert_ne.
  - intros Hne. by rewrite lookup_alter_ne.
Qed.

Lemma sendAll_snoc conversationId sends x remote st :
  sendAll conversationId (sends ++ [x]) remote st
  = let acc := sendAll conversationId sends remote st in
    let r := sendMessage (sendId x) (sendServerTime x) Committed conversationId
               (sendSenderId x) (sendSenderType x) (sendContent x) text
               (fst acc) (snd acc) in
    (snd (fst r), snd r).
Proof. unfold sendAll. by rewrite foldl_app. Qed.

Lemma sendAll_customers conversationId sends remote st c :
  Forall (λ x, sendSenderType x = customer) sends →
  conversationsCollection remote !! conversationId = Some c →
  unreadCount <$> conversationsCollection (sendAll conversationId sends remote st).1
                    !! conversationId
  = Some (unreadCount c + Z.of_nat (length sends))%Z.
Proof.
  induction sends as [| x sends IH] using rev_ind; intros Hall Hc.
  - simpl. rewrite Hc. simpl. f_equal. lia.
  - apply Forall_app in Hall as [Hall Hx].
    apply Forall_inv in Hx.
    rewrite sendAll_snoc. cbv zeta. simpl. rewrite Hx.
    rewrite lookup_alter_eq.
    specialize (IH Hall Hc).
    destruct (conversationsCollection (sendAll conversationId sends remote st).1
                !! conversationId) as [c' |]; [| done].
    simpl in *. injection IH as IH. rewrite IH, length_app. simpl. f_equal. lia.
Qed.

Lemma sendAll_exists conversationId sends remote st :
  is_Some (conversationsCollection remote !! conversationId) →
  is_Some (conversationsCollection (sendAll conversationId sends remote st).1
             !! conversationId).
Proof.
  induction sends as [| x sends IH] using rev_ind; intros Hc; [done |].
  rewrite sendAll_snoc. cbv zeta. simpl. rewrite lookup_alter_eq.
  destruct (IH Hc) as [c' ->]. by eexists.
Qed.

Lemma sendAll_writes conversationId sends remote st :
  Usage.writes (usageStats (sendAll conversationId sends remote st).2)
  = (Usage.writes (usageStats st) + 2 * Z.of_nat (length sends))%Z.
Proof.
  induction sends as [| x sends IH] using rev_ind; [simpl; lia |].
  rewrite sendAll_snoc. cbv zeta. simpl. rewrite IH, length_app. simpl. lia.
Qed.

(** The unread counter of a conversation after a run of committed sends: it
    is the number of customer messages sent since the last operator message
    (an operator message puts it back to 0); with no operator message in the
    run it is the old count plus the number of messages.  Each send counts
    two writes. *)
Theorem unread_count_after_sends (conversationId : string)
    (earlier customers : list Send) (reply : Send) (remote : Remote)
    (st : State) (c : ConversationDoc) :
  conversationsCollection remote !! conversationId = Some c →
  sendSenderType reply = operator →
  Forall (λ x, sendSenderType x = customer) customers →
  unreadCount <$> conversationsCollection
                    (sendAll conversationId (earlier ++ [reply] ++ customers)
                       remote st).1 !! conversationId
  = Some (Z.of_nat (length customers))
  ∧ unreadCount <$> conversationsCollection
                      (sendAll conversationId customers remote st).1
                      !! conversationId
    = Some (unreadCount c + Z.of_nat (length customers))%Z
  ∧ Usage.writes (usageStats
                    (sendAll conversationId (earlier ++ [reply] ++ customers)
                       remote st).2)
    = (Usage.writes (usageStats st)
       + 2 * Z.of_nat (length (earlier ++ [reply] ++ customers)))%Z.
Proof.
  intros Hc Hop Hcust. split; [| split].
  - unfold sendAll. rewrite !foldl_app.
    fold (sendAll conversationId earlier remote st).
    set (acc := sendAll conversationId earlier remote st).
    destruct (sendAll_exists conversationId earlier remote st) as [c1 Hc1];
      [by eexists |]. fold acc in Hc1.
    simpl foldl at 2. rewrite Hop.
    set (acc2 := (_, _)).
    change (foldl _ acc2 customers) with (sendAll conversationId customers acc2.1 acc2.2).
    rewrite (sendAll_customers conversationId customers acc2.1 acc2.2
               (mkConversation (sendServerTime reply) (sendServerTime reply) 0)).
    + simpl; f_equal; lia.
    + done.
    + subst acc2. simpl. by rewrite lookup_alter_eq, Hc1.
  - by apply sendAll_customers.
  - apply sendAll_writes.
Qed.

Lemma unread_count_after_sends_witness :
  unreadCount <$> conversationsCollection
    (sendAll "c1"
       ([mkSend "m1" 10 "+1" customer "hi"]
        ++ [mkSend "m2" 20 "op" operator "hello"]
        ++ [mkSend "m3" 30 "+1" customer "one"; mkSend "m4" 40 "+1" customer "two"])
       Scenario.oneConversation (initial 0)).1 !! "c1"
  = Some 2%Z.
Proof.
  apply (unread_count_after_sends "c1" [mkSend "m1" 10 "+1" customer "hi"]
           [mkSend "m3" 30 "+1" customer "one"; mkSend "m4" 40 "+1" customer "two"]
           (mkSend "m2" 20 "op" operator "hello")
           Scenario.oneConversation (initial 0) (mkConversation 900 900 3)).
  - reflexivity.
  - reflexivity.
  - repeat constructor.
Defined.

Lemma presenceMapOf_snoc now docs d :
  presenceMapOf now (docs ++ [d])
  = <[ docUserId d := presenceOfDoc now d ]> (presenceMapOf now docs).
Proof. unfold presenceMapOf. by rewrite foldl_app. Qed.

(** The presence map built from a snapshot has an entry for every document
    of the snapshot and for nobody else; with one document per user, the
    entry of a user is that user's document, with the current time standing
    in for a missing [lastSeen] and [false] for a missing [isTyping]. *)
Theorem presenceMapOf_complete (now : Z) (docs : list PresenceDoc) :
  NoDup (docUserId <$> docs) →
  (∀ d, d ∈ docs →
        presenceMapOf now docs !! docUserId d = Some (presenceOfDoc now d))
  ∧ (∀ k, is_Some (presenceMapOf now docs !! k) ↔ k ∈ docUserId <$> docs).
Proof.
  induction docs as [| d docs IH] using rev_ind; intros Hnd.
  { split; [intros d []%elem_of_nil |].
    intros k. unfold presenceMapOf. simpl. rewrite lookup_empty. split.
    - by intros [? ?].
    - by intros ?%elem_of_nil. }
  rewrite fmap_app in Hnd. apply NoDup_app in Hnd as (Hnd & Hfresh & _).
  destruct (IH Hnd) as [IH1 IH2].
  rewrite presenceMapOf_snoc. split.
  - intros d' [Hin | ->%list_elem_of_singleton]%elem_of_app.
    + rewrite lookup_insert_ne; [by apply IH1 |].
      intros E. apply (Hfresh (docUserId d')); [by apply list_elem_of_fmap_2 |].
      rewrite <- E. left.
    + by rewrite lookup_insert_eq.
  - intros k. rewrite fmap_app, elem_of_app. simpl.
    destruct (decide (docUserId d = k)) as [<- | Hne].
    + rewrite lookup_insert_eq. split; [intros _; right; left | by eexists].
    + rewrite lookup_insert_ne by done. rewrite IH2. split; [by left |].
      intros [H | H]; [done |]. apply list_elem_of_singleton in H. congruence.
Qed.

Lemma presenceMapOf_complete_witness :
  presenceMapOf 700 [mkPresenceDoc "a" online None None None] !! "a"
  = Some (mkPresence "a" online 700 false None).
Proof.
  destruct (presenceMapOf_complete 700 [mkPresenceDoc "a" online None None None])
    as [H _].
  - repeat constructor. by intros ?%elem_of_nil.
  - apply (H (mkPresenceDoc "a" online None None None)). left.
Defined.

End ServiceMore.

Module FeedMore.
Import Feed.

Lemma truthy_nonempty (s : string) : JS.truthy s = true → s ≠ EmptyString.
Proof. by intros H ->. Qed.

Lemma orDefault_nonempty (o : option string) (d : string) :
  d ≠ EmptyString → JS.orDefault o d ≠ EmptyString.
Proof.
  intros Hd. destruct o as [s |]; simpl; [| done].
  destruct (JS.truthy s) eqn:T; [by apply truthy_nonempty | done].
Qed.

Lemma orDefault_Some_empty (s : string) : JS.orDefault (Some s) EmptyString = s.
Proof. by destruct s. Qed.

Lemma if_truthy_self (s : string) : (if JS.truthy s then s else EmptyString) = s.
Proof. by destruct s. Qed.

Lemma insertSorted_filter {A} (compareFn : A → A → Z) (P : A → Prop)
    `{!∀ x, Decision (P x)} (x : A) (l : list A) :
  (∀ y, (0 < compareFn x y)%Z → P x → P y → False) →
  filter P (JS.insertSorted compareFn x l) = filter P (x :: l).
Proof.
  intros Hsep. induction l as [| y l IH]; simpl; [done |].
  destruct (Z.leb_spec (compareFn x y) 0) as [Hle | Hgt]; [done |].
  rewrite (filter_cons P y), IH, !(filter_cons P).
  destruct (decide (P y)) as [Hy |]; [| done].
  destruct (decide (P x)) as [Hx |]; [| done].
  by destruct (Hsep y Hgt Hx Hy).
Qed.

Lemma sort_filter {A} (compareFn : A → A → Z) (P : A → Prop)
    `{!∀ x, Decision (P x)} (l : list A) :
  (∀ x y, (0 < compareFn x y)%Z → P x → P y → False) →
  filter P (JS.sort compareFn l) = filter P l.
Proof.
  intros Hsep. induction l as [| x l IH]; [done |].
  change (JS.sort compareFn (x :: l))
    with (JS.insertSorted compareFn x (JS.sort compareFn l)).
  rewrite insertSorted_filter by (intros y; apply Hsep).
  by rewrite !(filter_cons P), IH.
Qed.

Lemma filter_take_prefix {A} (P : A → Prop) `{!∀ x, Decision (P x)} (n : nat)
    (l : list A) :
  filter P (take n l) `prefix_of` filter P l.
Proof.
  exists (filter P (drop n l)). by rewrite <- filter_app, take_drop.
Qed.

Section WithDates.
Context (newDate : TimeValue → Z).

(** For a document whose text fields hold strings or are missing, whatever
    the strings: every text field of the message built from it is non-empty
    (a missing or empty field gets its default), the source is [FIREBASE],
    and the message is outbound exactly when its sender is the operator, that
    is when the [Sender] (else [sender]) field reads "operator" in any letter
    case. *)
Theorem normalizeFirebaseDoc_defaults (now : Z) (index : nat) (doc : FirebaseDoc) :
  let m := normalizeFirebaseDoc newDate now index doc in
  Forall (λ s, s ≠ EmptyString)
    [id m; phone_number m; name m; product m; category m; intent m; message m;
     type m]
  ∧ source m = FIREBASE
  ∧ (direction m = outbound ↔ sender m = operator)
  ∧ (sender m = operator ↔
       JS.toLowerCase
         (JS.orDefault (JS.or (texts doc !! "Sender") (texts doc !! "sender"))
            "Customer")
       = "operator").
Proof.
  intros m. split; [| split; [done | split]].
  - subst m. unfold normalizeFirebaseDoc. cbn [id phone_number name product
      category intent message type].
    repeat (apply Forall_cons; split; [by apply orDefault_nonempty |]).
    apply Forall_nil_2.
  - subst m. unfold normalizeFirebaseDoc. cbn [direction sender].
    by destruct (String.eqb _ _).
  - subst m. unfold normalizeFirebaseDoc. cbn [sender].
    destruct (String.eqb_spec
                (JS.toLowerCase
                   (JS.orDefault
                      (JS.or (texts doc !! "Sender") (texts doc !! "sender"))
                      "Customer")) "operator") as [E | E]; by split.
Qed.

(** Where the timestamp of a Firestore document comes from.  A [ReceivedAt]
    that is a Firestore timestamp wins over every other field.  A document
    with none of the six time fields gets the current time.  So does a document
    whose only time fields are [time], [timestamp] or [createdAt] holding date
    strings (strings are read from [ReceivedAt] and [Time] only), and one
    whose only time field is a [ReceivedAt] of zero seconds. *)
Theorem firebaseTimestamp_resolution (now : Z) (doc : FirebaseDoc) :
  (∀ millis, times doc !! "ReceivedAt" = Some (TsTimestamp millis) →
             firebaseTimestamp newDate now doc = millis)
  ∧ (∀ seconds, times doc !! "ReceivedAt" = Some (TsSeconds seconds) →
                seconds ≠ 0%Z →
                firebaseTimestamp newDate now doc = (seconds * 1000)%Z)
  ∧ (times doc !! "ReceivedAt" = None → times doc !! "Time" = None →
     times doc !! "updatedAt" = None →
     (∀ k, k ∈ ["time"; "timestamp"; "createdAt"] →
           times doc !! k = None ∨ ∃ s, times doc !! k = Some (TsString s)) →
     firebaseTimestamp newDate now doc = now)
  ∧ (times doc !! "ReceivedAt" = Some (TsSeconds 0) →
     (∀ k, k ∈ ["Time"; "time"; "timestamp"; "createdAt"; "updatedAt"] →
           times doc !! k = None) →
     firebaseTimestamp newDate now doc = now).
Proof.
  split; [| split; [| split]].
  - intros millis H. unfold firebaseTimestamp. by rewrite H.
  - intros seconds H Hnz. unfold firebaseTimestamp. rewrite H. simpl.
    by destruct (Z.eqb_spec seconds 0).
  - intros H1 H2 H3 Hs. unfold firebaseTimestamp. rewrite H1, H2, H3.
    pose proof (Hs "time" ltac:(repeat constructor)) as [E1 | [s1 E1]];
    pose proof (Hs "timestamp" ltac:(repeat constructor)) as [E2 | [s2 E2]];
    pose proof (Hs "createdAt" ltac:(repeat constructor)) as [E3 | [s3 E3]];
    by rewrite E1, E2, E3.
  - intros H Hs. unfold firebaseTimestamp. rewrite H.
    by rewrite !Hs by repeat constructor.
Qed.

(** Within one call, two documents without an [id] field never get the same
    generated id. *)
Theorem getFirebaseMessages_generated_ids (enabled : list DataSource)
    (firebaseData : list FirebaseDoc) (isRateLimited : bool) (now : Z)
    (i j : nat) (di dj : FirebaseDoc) (mi mj : UnifiedMessage) :
  firebaseData !! i = Some di → firebaseData !! j = Some dj →
  texts di !! "id" = None → texts dj !! "id" = None →
  getFirebaseMessages newDate enabled firebaseData isRateLimited now !! i = Some mi →
  getFirebaseMessages newDate enabled firebaseData isRateLimited now !! j = Some mj →
  i ≠ j → id mi ≠ id mj.
Proof.
  intros Hi Hj Hidi Hidj Hmi Hmj Hne Heq. apply Hne.
  unfold getFirebaseMessages in Hmi, Hmj.
  destruct (negb (includes enabled FIREBASE) || isRateLimited); [done |].
  rewrite list_lookup_imap in Hmi, Hmj.
  apply fmap_Some in Hmi as (di' & Hdi' & ->).
  apply fmap_Some in Hmj as (dj' & Hdj' & ->).
  apply lookup_take_Some in Hdi' as [Hdi' _].
  apply lookup_take_Some in Hdj' as [Hdj' _].
  assert (di' = di) as -> by congruence.
  assert (dj' = dj) as -> by congruence.
  unfold normalizeFirebaseDoc in Heq. cbn [id] in Heq.
  rewrite Hidi, Hidj in Heq. cbn [JS.orDefault] in Heq.
  apply (inj (String.app "firebase-")) in Heq.
  apply (inj (String.app (pretty now))) in Heq.
  apply (inj (String.app "-")) in Heq.
  by apply (inj pretty) in Heq.
Qed.

(** Messages with the same timestamp leave [getAllMessages] in the order in
    which they were collected (webhook, then Firebase, then sheet; arrival
    order within each): the messages of the result that carry a given
    timestamp are the first such messages of the collected list, in the same
    order. *)
Theorem getAllMessages_ties_keep_order (enabled : list DataSource)
    (webhookMessages : list UnifiedMessage) (firebaseData : list FirebaseDoc)
    (sheetsData : list Sheets.GoogleSheetsMessage) (isRateLimited : bool)
    (now t : Z) :
  let pool := collected newDate enabled webhookMessages firebaseData sheetsData
                isRateLimited now in
  let result := getAllMessages newDate enabled webhookMessages firebaseData
                  sheetsData isRateLimited now in
  filter (λ m, timestamp m = t) result `prefix_of` filter (λ m, timestamp m = t) pool
  ∧ (length pool ≤ 100 →
     filter (λ m, timestamp m = t) result = filter (λ m, timestamp m = t) pool).
Proof.
  intros pool result.
  assert (Hs : filter (λ m, timestamp m = t) (JS.sort newestFirst pool)
               = filter (λ m, timestamp m = t) pool).
  { apply sort_filter. unfold newestFirst. intros x y Hlt Hx Hy. lia. }
  split.
  - rewrite <- Hs. apply filter_take_prefix.
  - intros Hlen. unfold result, getAllMessages. fold pool.
    rewrite take_ge; [done |].
    by rewrite (Permutation_length (JSFacts.sort_perm newestFirst pool)).
Qed.

(** Every message of the aggregate comes from an enabled source, and none
    comes from Firebase while the rate limit is on (the webhook messages being
    tagged with their own source). *)
Theorem getAllMessages_sources (enabled : list DataSource)
    (webhookMessages : list UnifiedMessage) (firebaseData : list FirebaseDoc)
    (sheetsData : list Sheets.GoogleSheetsMessage) (isRateLimited : bool)
    (now : Z) :
  Forall (λ w, source w = WEBHOOK) webhookMessages →
  Forall (λ m, source m ∈ enabled ∧ (isRateLimited = true → source m ≠ FIREBASE))
    (getAllMessages newDate enabled webhookMessages firebaseData sheetsData
       isRateLimited now).
Proof.
  intros Hweb. apply Forall_forall. intros m Hm.
  unfold getAllMessages in Hm. apply subseteq_take in Hm.
  rewrite (JSFacts.sort_perm newestFirst _) in Hm.
  unfold collected in Hm.
  apply elem_of_app in Hm as [Hm | Hm]; [| apply elem_of_app in Hm as [Hm | Hm]].
  - destruct (includes enabled WEBHOOK) eqn:E; [| by apply elem_of_nil in Hm].
    apply subseteq_take in Hm.
    rewrite Forall_forall in Hweb. rewrite (Hweb m Hm).
    split; [by apply bool_decide_eq_true in E | done].
  - destruct (includes enabled FIREBASE) eqn:E; simpl in Hm;
      [| by apply elem_of_nil in Hm].
    destruct isRateLimited; simpl in Hm; [by apply elem_of_nil in Hm |].
    unfold getFirebaseMessages in Hm. rewrite E in Hm. simpl in Hm.
    apply elem_of_lookup_imap in Hm as (i & d & -> & _).
    split; [by apply bool_decide_eq_true in E | done].
  - destruct (includes enabled GOOGLE_SHEETS) eqn:E; [| by apply elem_of_nil in Hm].
    unfold getSheetsMessages in Hm. rewrite E in Hm. simpl in Hm.
    apply elem_of_lookup_imap in Hm as (i & d & -> & _).
    split; [by apply bool_decide_eq_true in E | done].
Qed.

End WithDates.

Lemma getFirebaseMessages_generated_ids_witness :
  id (normalizeFirebaseDoc (λ _, 0%Z) 5 0 (mkDoc ∅ ∅))
  ≠ id (normalizeFirebaseDoc (λ _, 0%Z) 5 1 (mkDoc ∅ ∅)).
Proof.
  apply (getFirebaseMessages_generated_ids (λ _, 0%Z) defaultEnabled
           [mkDoc ∅ ∅; mkDoc ∅ ∅] false 5 0 1 (mkDoc ∅ ∅) (mkDoc ∅ ∅));
    first [reflexivity | lia].
Defined.

Lemma getAllMessages_sources_witness :
  Forall (λ m, source m ∈ [WEBHOOK; FIREBASE]
               ∧ (true = true → source m ≠ FIREBASE))
    (getAllMessages (λ _, 0%Z) [WEBHOOK; FIREBASE]
       [mkUnified "w1" "+1" "Ava" "Tee" "Order" "Buy" "Hi" 7 WEBHOOK customer
          inbound "text"]
       (docsByAge 2) [] true 9).
Proof.
  apply (getAllMessages_sources (λ _, 0%Z) [WEBHOOK; FIREBASE]).
  repeat constructor.
Defined.

End FeedMore.

Module SheetsMore.
Import Feed SheetsFetch.

Lemma orDefault_trailing_blanks (row : list string) (n i : nat) (d : string) :
  JS.orDefault ((row ++ replicate n EmptyString) !! i) d = JS.orDefault (row !! i) d.
Proof.
  destruct (decide (i < length row)) as [Hlt | Hge].
  - by rewrite lookup_app_l.
  - rewrite lookup_app_r by lia. rewrite (lookup_ge_None_2 row i) by lia.
    destruct (replicate n EmptyString !! (i - length row)) as [s |] eqn:E; [| done].
    by apply lookup_replicate in E as [-> _].
Qed.

Lemma parseRow_trailing_blanks now nowIso index row n :
  parseRow now nowIso index (row ++ replicate n EmptyString)
  = parseRow now nowIso index row.
Proof.
  unfold parseRow, cell. by rewrite !orDefault_trailing_blanks.
Qed.

Lemma imap_related {A B} (R : A → A → Prop) (f : nat → A → B) (l l' : list A) :
  Forall2 R l l' → (∀ i x y, R x y → f i y = f i x) → imap f l' = imap f l.
Proof.
  intros H. revert f. induction H as [| x y l l' Hxy _ IH]; intros f Hf; [done |].
  simpl. f_equal; [by apply Hf |]. apply IH. intros i. apply Hf.
Qed.

(** Empty cells at the end of a row, which the API leaves out of its
    answer, make no difference: two sheets whose rows differ only by such
    cells are read as the same messages. *)
Theorem fetchSheetsData_trailing_blanks (now : Z) (nowIso : string)
    (rows rows' : list (list string)) :
  Forall2 (λ row row', ∃ n, row' = row ++ replicate n EmptyString) rows rows' →
  fetchSheetsData now nowIso (Some rows') = fetchSheetsData now nowIso (Some rows).
Proof.
  intros H. unfold fetchSheetsData. simpl default.
  apply (imap_related _ _ _ _ (Forall2_drop _ _ _ 1 H)).
  intros i x y [n ->]. apply parseRow_trailing_blanks.
Qed.

Lemma fetchSheetsData_trailing_blanks_witness :
  fetchSheetsData 0 "2025-01-01"
    (Some [["phone"; "name"] ++ replicate 0 EmptyString;
           ["+1"; "Ava"] ++ replicate 3 EmptyString])
  = fetchSheetsData 0 "2025-01-01" (Some [["phone"; "name"]; ["+1"; "Ava"]]).
Proof.
  apply fetchSheetsData_trailing_blanks.
  repeat constructor; by eexists.
Defined.

(** What [addMessage] appends below the rows of a sheet that has a header
    row is read back by [fetchSheetsData] as the message that was added, with
    the time of the append as its timestamp.  Appended to an empty sheet, the
    row becomes the first row, which is skipped as the header: the message is
    not read back. *)
Theorem addMessage_read_back (now : Z) (nowIso stamp : string)
    (message : Sheets.GoogleSheetsMessage) (header : list string)
    (rows : list (list string)) :
  JS.truthy stamp = true →
  fetchSheetsData now nowIso
    (Some (header :: rows ++ [appendedRow stamp message])) !! length rows
  = Some (Sheets.mkSheets
            (Sheets.phone_number message) (Sheets.name message)
            (Sheets.Product message) (Sheets.Category message)
            (Sheets.Intent message) (Sheets.Message message)
            None None None None (Some stamp)
            (Some ("sheets-" +:+ pretty now +:+ "-" +:+ pretty (length rows))))
  ∧ fetchSheetsData now nowIso (Some ([] ++ [appendedRow stamp message])) = [].
Proof.
  intros Hstamp. split; [| done].
  unfold fetchSheetsData. simpl default. simpl drop. rewrite drop_0.
  rewrite list_lookup_imap, lookup_app_r, Nat.sub_diag by done.
  simpl. unfold parseRow, cell, appendedRow. simpl.
  rewrite !FeedMore.if_truthy_self, Hstamp. done.
Qed.

Lemma addMessage_read_back_witness :
  Sheets.Message
    <$> fetchSheetsData 0 "2025-02-02"
          (Some (["phone"] :: [["+1"]]
                 ++ [appendedRow "2025-01-01"
                       (Sheets.mkSheets "+2" "Bo" "Tee" "Order" "Buy" "Hello"
                          None None None None None None)])) !! 1
  = Some "Hello".
Proof.
  destruct (addMessage_read_back 0 "2025-02-02" "2025-01-01"
              (Sheets.mkSheets "+2" "Bo" "Tee" "Order" "Buy" "Hello"
                 None None None None None None) ["phone"] [["+1"]]) as [H _].
  - reflexivity.
  - simpl length in H. by rewrite H.
Defined.

End SheetsMore.

Module DashboardMore.
Import Feed Dashboard DashboardViews.

Lemma switch_in (table : list (string * string)) (x r : string) :
  switch table x = Some r → r ∈ table.*2.
Proof.
  induction table as [| [label result] table IH]; simpl; [done |].
  destruct (String.eqb x label).
  - intros [= ->]. left.
  - intros H. right. by apply IH.
Qed.

Lemma mapWebhookCategory_range (category : string) :
  mapWebhookCategory category
  ∈ ["new-orders"; "enquiries"; "follow-ups"; "complaints"; "returns"].
Proof.
  unfold mapWebhookCategory.
  destruct (switch categoryTable _) as [r |] eqn:E; simpl.
  - apply switch_in in E.
    assert (H : Forall (λ r, r ∈ ["new-orders"; "enquiries"; "follow-ups";
                                  "complaints"; "returns"]) categoryTable.*2).
    { apply (bool_decide_unpack _). vm_compute. exact I. }
    rewrite Forall_forall in H. by apply H.
  - right. left.
Qed.

Lemma isNewOrder_category (msg : UnifiedMessage) :
  isNewOrder msg = true → mapWebhookCategory (category msg) = "new-orders".
Proof.
  unfold isNewOrder, mapWebhookCategory. cbv zeta.
  set (c := JS.toLowerCase (JS.orDefault (Some (category msg)) EmptyString)).
  rewrite !orb_true_iff.
  intros [[[[H | H] | H] | H] | H]; apply String.eqb_eq in H; rewrite H;
    vm_compute; reflexivity.
Qed.

Lemma insertSorted_sorted_by {A} (compareFn : A → A → Z) (R : A → A → Prop)
    `{!Transitive R} (x : A) (l : list A) :
  (∀ y, (compareFn x y <= 0)%Z → R x y) →
  (∀ y, (0 < compareFn x y)%Z → R y x) →
  StronglySorted R l → StronglySorted R (JS.insertSorted compareFn x l).
Proof.
  intros Hle Hgt. induction 1 as [| y l Hs IH Hy]; simpl.
  - repeat constructor.
  - destruct (Z.leb_spec (compareFn x y) 0) as [H | H].
    + constructor; [by constructor |].
      constructor; [by apply Hle |].
      eapply Forall_impl; [exact Hy |]. intros z Hz. simpl in Hz.
      by transitivity y; [apply Hle |].
    + constructor; [done |].
      rewrite JSFacts.insertSorted_perm. constructor; [by apply Hgt | done].
Qed.

Section WithLocale.
Context (toLocaleDateString toLocaleTimeString : Z → string).

Lemma getMessagesCount_cons now msg msgs category' :
  getMessagesCount toLocaleDateString toLocaleTimeString now (msg :: msgs) category'
  = (if decide (mapWebhookCategory (category msg) = category') then 1 else 0)
    + getMessagesCount toLocaleDateString toLocaleTimeString now msgs category'.
Proof.
  unfold getMessagesCount, allMessages. rewrite fmap_cons, filter_cons.
  cbn [convertToDisplayMessage displayCategory].
  by destruct (decide _).
Qed.

(** Every message of the feed is counted under exactly one of the five
    dashboard categories: the five counts add up to the number of messages,
    and the count of any other category is zero. *)
Theorem getMessagesCount_partition (now : Z) (allSourceMessages : list UnifiedMessage) :
  let count := getMessagesCount toLocaleDateString toLocaleTimeString now
                 allSourceMessages in
  count "new-orders" + count "enquiries" + count "follow-ups"
  + count "complaints" + count "returns" = length allSourceMessages
  ∧ (∀ other,
       other ∉ ["new-orders"; "enquiries"; "follow-ups"; "complaints"; "returns"] →
       count other = 0).
Proof.
  induction allSourceMessages as [| msg msgs [IH1 IH2]]; [done |].
  cbv zeta in *. split.
  - rewrite !getMessagesCount_cons.
    pose proof (mapWebhookCategory_range (category msg)) as Hr.
    set (k := mapWebhookCategory (category msg)) in *. clearbody k.
    repeat (apply elem_of_cons in Hr as [-> | Hr];
            [repeat case_decide; try done; simpl length; lia |]).
    by apply elem_of_nil in Hr.
  - intros other Hother. rewrite getMessagesCount_cons, (IH2 other Hother).
    case_decide as E; [| done].
    exfalso. apply Hother. rewrite <- E. apply mapWebhookCategory_range.
Qed.

(** Every message listed as a new order is counted under "new-orders", so
    the table of new orders is never longer than that count; it can be
    shorter, because the table compares the lower-cased category as it is
    while the count trims it first. *)
Theorem newOrders_within_category (now : Z) (allSourceMessages : list UnifiedMessage) :
  (∀ msg, isNewOrder msg = true → mapWebhookCategory (category msg) = "new-orders")
  ∧ length (newOrders allSourceMessages)
    ≤ getMessagesCount toLocaleDateString toLocaleTimeString now
        allSourceMessages "new-orders"
  ∧ (∃ msg, mapWebhookCategory (category msg) = "new-orders"
            ∧ isNewOrder msg = false).
Proof.
  split; [apply isNewOrder_category | split].
  - unfold newOrders. rewrite length_imap.
    induction allSourceMessages as [| msg msgs IH]; [done |].
    rewrite getMessagesCount_cons, filter_cons.
    destruct (decide (isNewOrder msg = true)) as [H | H].
    + rewrite (isNewOrder_category msg H), decide_True by done. simpl. lia.
    + lia.
  - exists (mkUnified "m" "+1" "Ava" "Tee" " Order " "Buy" "Hi" 0 FIREBASE
              customer inbound "text").
    by vm_compute.
Qed.

End WithLocale.

(** The thread opened for a customer holds exactly the messages of the feed
    whose phone number equals the customer's once white space (ASCII or not),
    dashes and parentheses are removed; it is ordered oldest first, messages of
    the same instant staying in feed order; and it is the same thread for every
    way of writing the customer's number that normalises to the same digits. *)
Theorem openChatForCustomer_thread (customerPhone customerName : string)
    (allSourceMessages : list UnifiedMessage) :
  let thread := openChatForCustomer customerPhone customerName allSourceMessages in
  let matching := filter (samePhone customerPhone) allSourceMessages in
  StronglySorted notNewer thread
  ∧ thread ≡ₚ toChatEntry customerName <$> matching
  ∧ (∀ t, filter (λ e, chatTimestamp e = t) thread
          = filter (λ e, chatTimestamp e = t) (toChatEntry customerName <$> matching))
  ∧ (∀ e, e ∈ thread → normalizePhone (chatPhone e) = normalizePhone customerPhone)
  ∧ (∀ msg, msg ∈ allSourceMessages →
       normalizePhone (phone_number msg) = normalizePhone customerPhone →
       toChatEntry customerName msg ∈ thread)
  ∧ (∀ otherSpelling,
       normalizePhone otherSpelling = normalizePhone customerPhone →
       openChatForCustomer otherSpelling customerName allSourceMessages = thread).
Proof.
  intros thread matching. split_and!.
  - unfold thread, openChatForCustomer. fold matching.
    induction (toChatEntry customerName <$> matching) as [| e l IH];
      [constructor |].
    change (JS.sort oldestFirst (e :: l))
      with (JS.insertSorted oldestFirst e (JS.sort oldestFirst l)).
    assert (HT : Transitive notNewer) by (intros a b c; unfold notNewer; lia).
    apply (@insertSorted_sorted_by _ oldestFirst notNewer HT e); [| | done];
      unfold oldestFirst, notNewer; intros; lia.
  - apply JSFacts.sort_perm.
  - intros t. apply FeedMore.sort_filter.
    unfold oldestFirst. intros x y Hlt Hx Hy. lia.
  - intros e He. unfold thread, openChatForCustomer in He.
    rewrite (JSFacts.sort_perm _ _) in He.
    apply list_elem_of_fmap in He as (msg & -> & Hmsg).
    apply list_elem_of_filter in Hmsg as [Hsame _].
    unfold samePhone in Hsame. by rewrite FeedMore.orDefault_Some_empty in Hsame.
  - intros msg Hin Hsame. unfold thread, openChatForCustomer.
    rewrite (JSFacts.sort_perm _ _). apply list_elem_of_fmap_2.
    apply list_elem_of_filter. split; [| done].
    unfold samePhone. by rewrite FeedMore.orDefault_Some_empty.
  - intros otherSpelling Hsame. unfold thread, openChatForCustomer. do 2 f_equal.
    apply list_filter_iff. intros msg. unfold samePhone. by rewrite Hsame.
Qed.

(** White space that is not ASCII is removed too: a number written with a
    no-break space (U+00A0, the bytes C2 A0) and a thin space (U+2009, the
    bytes E2 80 89) normalises to its digits. *)
Lemma normalizePhone_unicode_space :
  normalizePhone
    ("+1" +:+ JS.noBreakSpace +:+ "(555) 123"
     +:+ String "226" (String "128" (String "137" EmptyString)) +:+ "4567")
  = "+15551234567".
Proof. reflexivity. Qed.

End DashboardMore.
